(** * The narration sequencer of [src/screens/TourMapScreen.tsx]

    A shallow embedding of the text-to-speech sequencer of the tour map
    screen: the segmentation of a stop's description into sentences, the
    handlers [handleSelectStop], [playFrom], [togglePlayback] and
    [stopPlayback], and the completion and error closures they hand to the
    speech engine.

    Conventions of the embedding.
    - A JavaScript string is the list of its UTF-16 code units.
    - The component's [useState] cells and [useRef] cells are the fields of
      one record; a handler is a computation in the state monad over that
      record paired with the trace of calls made to the outside world
      ([Speech.stop], [Speech.pause], [Speech.speak], [Alert.alert],
      [console.log]).  A handler runs to completion and the component is
      rendered again before the next event is dispatched, so a state setter
      is modelled as taking effect at once and a handler reads the latest
      cells.
    - The closures passed as [onDone] and [onError] are first-order data
      holding exactly the variables the JavaScript closure captures; the
      engine delivers one by running [run_onDone] or [run_onError] on it. *)

From Stdlib Require Import String Ascii List NArith ZArith Bool Arith Lia QArith.
From Stdlib Require Import DecimalString.
From ExtLib Require Import Structures.Monad Structures.MonadState Data.Monads.StateMonad.
Import ListNotations MonadNotation.
Local Close Scope Q_scope.
Local Open Scope monad_scope.
Local Close Scope Z_scope.
Local Open Scope nat_scope.
Local Open Scope list_scope.

(** ** JavaScript strings *)

Module JsString.

(** A UTF-16 code unit. *)
Definition code_unit := N.

Definition jsstring := list code_unit.

Definition of_ascii (a : ascii) : code_unit := N_of_ascii a.

(** An ASCII literal as a JavaScript string. *)
Fixpoint js (s : string) : jsstring :=
  match s with
  | EmptyString => []
  | String a s' => of_ascii a :: js s'
  end.

(** ECMAScript [WhiteSpace] and [LineTerminator], the code points that
    [String.prototype.trim] strips.  All of them are in the Basic
    Multilingual Plane, so each is a single code unit. *)
Definition is_white_space (c : code_unit) : bool :=
  ((9 <=? c) && (c <=? 13)             (* TAB LF VT FF CR *)
   || (c =? 32)                        (* SPACE *)
   || (c =? 160)                       (* NO-BREAK SPACE *)
   || (c =? 5760)                      (* U+1680 *)
   || ((8192 <=? c) && (c <=? 8202))   (* U+2000 .. U+200A *)
   || (c =? 8232) || (c =? 8233)       (* LINE / PARAGRAPH SEPARATOR *)
   || (c =? 8239) || (c =? 8287)       (* U+202F, U+205F *)
   || (c =? 12288)                     (* U+3000 *)
   || (c =? 65279))%N.                 (* U+FEFF *)

Fixpoint drop_while (p : code_unit -> bool) (s : jsstring) : jsstring :=
  match s with
  | [] => []
  | c :: s' => if p c then drop_while p s' else s
  end.

Definition trimStart (s : jsstring) : jsstring := drop_while is_white_space s.

Definition trimEnd (s : jsstring) : jsstring :=
  rev (drop_while is_white_space (rev s)).

(** [String.prototype.trim]. *)
Definition trim (s : jsstring) : jsstring := trimEnd (trimStart s).

(** Truthiness of a string: only the empty string is falsy. *)
Definition truthy (s : jsstring) : bool :=
  match s with [] => false | _ :: _ => true end.

(** [a || b] where [a] is a possibly undefined string. *)
Definition or_else (a : option jsstring) (b : jsstring) : jsstring :=
  match a with
  | Some s => if truthy s then s else b
  | None => b
  end.

End JsString.

Import JsString.

(** ** The regular expression [/[^.!?]+[.!?]+/g] *)

Module SentenceRegExp.

(** The class [[.!?]]. *)
Definition is_terminator (c : code_unit) : bool :=
  ((c =? 46) || (c =? 33) || (c =? 63))%N.

(** The class [[^.!?]]; a negated class also matches line terminators. *)
Definition not_terminator (c : code_unit) : bool := negb (is_terminator c).

(** Backtracking matcher for [C+] followed by the continuation [k], where
    [C] is the character class [p].  The quantifier is greedy: after one
    unit of the class it first tries one more repetition and only when
    that fails hands the rest of the input to [k].  The result is the
    input left after the whole match. *)
Fixpoint plus_class (p : code_unit -> bool) (s : jsstring)
         (k : jsstring -> option jsstring) : option jsstring :=
  match s with
  | [] => None
  | c :: s' =>
      if p c then
        match plus_class p s' k with
        | Some r => Some r
        | None => k s'
        end
      else None
  end.

(** One attempt of [[^.!?]+[.!?]+] anchored at the head of [s]: the input
    left after the match, if there is one. *)
Definition exec_at (s : jsstring) : option jsstring :=
  plus_class not_terminator s (fun r => plus_class is_terminator r Some).

(** The scan of [String.prototype.match] with the [g] flag: the attempt
    is made at [lastIndex]; a failure moves one code unit forward and a
    success of length [n] moves [lastIndex] by [n] (this expression never
    matches the empty string).  [skip] counts the code units still
    covered by the previous match. *)
Fixpoint match_from (s : jsstring) (skip : nat) : list jsstring :=
  match s with
  | [] => []
  | _ :: s' =>
      match skip with
      | S n => match_from s' n
      | O =>
          match exec_at s with
          | Some r =>
              let n := length s - length r in
              firstn n s :: match_from s' (n - 1)
          | None => match_from s' 0
          end
      end
  end.

(** [s.match(/[^.!?]+[.!?]+/g)]: the array of all matches, or [null]
    when there is none. *)
Definition match_g (s : jsstring) : option (list jsstring) :=
  match match_from s 0 with
  | [] => None
  | ms => Some ms
  end.

End SentenceRegExp.

Import SentenceRegExp.

(** ** The speech engine as the screen sees it *)

Module Speech.

(** The [onDone] closures the screen creates, with the variables each one
    captures: the one built in [handleSelectStop] closes over
    [cleanChunks], the one built in [playFrom] over [array] and [index]. *)
Inductive onDone_closure : Type :=
| SelectStop_onDone (cleanChunks : list jsstring)
| PlayFrom_onDone (array : list jsstring) (index : nat).

(** The [onError] closures; neither captures a variable. *)
Inductive onError_closure : Type :=
| SelectStop_onError
| PlayFrom_onError.

(** The options object given to [Speech.speak]. *)
Record SpeechOptions : Type := mkOptions {
  language : jsstring;
  pitch : option Q;
  rate : option Q;
  onDone : onDone_closure;
  onError : onError_closure
}.

(** A call made by the screen to the outside world. *)
Inductive call : Type :=
| Speech_stop
| Speech_pause
| Speech_speak (text : jsstring) (options : SpeechOptions)
| Alert_alert (title message : jsstring)
| console_log (args : list jsstring).

End Speech.

Import Speech.

(** ** The component *)

Module TourMapScreen.

(** [type Stop]; the coordinates and the order are not read by the
    sequencer. *)
Record Stop : Type := mkStop {
  id : jsstring;
  title : jsstring;
  description : option jsstring;
  latitude : Q;
  longitude : Q;
  stop_order : Z
}.

(** The state cells of the narration panel and the two refs that mirror
    them for the callbacks. *)
Record Component : Type := mkComponent {
  selectedStop : option Stop;
  sentences : list jsstring;
  currentIdx : nat;
  isSpeaking : bool;
  isPaused : bool;
  isPausedRef : bool;
  currentIdxRef : nat
}.

Record World : Type := mkWorld {
  component : Component;
  calls : list call
}.

Definition M : Type -> Type := state World.

Definition read {A : Type} (f : Component -> A) : M A :=
  w <- get ;; ret (f (component w)).

Definition update (f : Component -> Component) : M unit :=
  w <- get ;; put (mkWorld (f (component w)) (calls w)).

Definition perform (c : call) : M unit :=
  w <- get ;; put (mkWorld (component w) (calls w ++ [c])).

Definition setSelectedStop (v : option Stop) : M unit :=
  update (fun c => mkComponent v (sentences c) (currentIdx c) (isSpeaking c)
                     (isPaused c) (isPausedRef c) (currentIdxRef c)).

Definition setSentences (v : list jsstring) : M unit :=
  update (fun c => mkComponent (selectedStop c) v (currentIdx c) (isSpeaking c)
                     (isPaused c) (isPausedRef c) (currentIdxRef c)).

Definition setCurrentIdx (v : nat) : M unit :=
  update (fun c => mkComponent (selectedStop c) (sentences c) v (isSpeaking c)
                     (isPaused c) (isPausedRef c) (currentIdxRef c)).

Definition setIsSpeaking (v : bool) : M unit :=
  update (fun c => mkComponent (selectedStop c) (sentences c) (currentIdx c) v
                     (isPaused c) (isPausedRef c) (currentIdxRef c)).

Definition setIsPaused (v : bool) : M unit :=
  update (fun c => mkComponent (selectedStop c) (sentences c) (currentIdx c)
                     (isSpeaking c) v (isPausedRef c) (currentIdxRef c)).

(** [isPausedRef.current = v]. *)
Definition set_isPausedRef (v : bool) : M unit :=
  update (fun c => mkComponent (selectedStop c) (sentences c) (currentIdx c)
                     (isSpeaking c) (isPaused c) v (currentIdxRef c)).

(** [currentIdxRef.current = v]. *)
Definition set_currentIdxRef (v : nat) : M unit :=
  update (fun c => mkComponent (selectedStop c) (sentences c) (currentIdx c)
                     (isSpeaking c) (isPaused c) (isPausedRef c) v).

(** The state before any stop is selected. *)
Definition initial : Component := mkComponent None [] 0 false false false 0.

(** Runs a handler on a component state; the result is the new state and
    the calls the handler made, in order. *)
Definition run (h : M unit) (c : Component) : Component * list call :=
  let w := execState h (mkWorld c []) in (component w, calls w).

(** *** Segmentation (lines 156-159 of the source) *)

(** "Sin descripción disponible."; the accented letter is U+00F3. *)
Definition placeholder : jsstring :=
  js "Sin descripci" ++ [243%N] ++ js "n disponible.".

Definition fullText_of (description : option jsstring) : jsstring :=
  or_else (option_map trim description) placeholder.

Definition chunks_of (fullText : jsstring) : list jsstring :=
  match match_g fullText with
  | Some ms => ms
  | None => [fullText]
  end.

Definition cleanChunks_of (description : option jsstring) : list jsstring :=
  filter (fun c => 0 <? length c) (map trim (chunks_of (fullText_of description))).

(** The template literal that makes the opening utterance. *)
Definition initialText (stop_title : jsstring) (cleanChunks : list jsstring)
  : jsstring :=
  stop_title ++ js ". " ++ or_else (nth_error cleanChunks 0) [].

(** *** The handlers *)

Definition es_ES : jsstring := js "es-ES".

Definition playFrom (array : list jsstring) (index : nat) : M unit :=
  paused <- read isPausedRef ;;
  if (length array <=? index) || paused then
    if length array <=? index then setIsSpeaking false else ret tt
  else
    setCurrentIdx index ;;
    set_currentIdxRef index ;;
    match nth_error array index with
    | Some unit_text =>
        perform (Speech_speak (trim unit_text)
                   (mkOptions es_ES (Some (1 # 1)%Q) (Some (9 # 10)%Q)
                      (PlayFrom_onDone array index) PlayFrom_onError))
    | None => ret tt  (* not reached: [index < array.length] here *)
    end.

Definition handleSelectStop (stop : Stop) : M unit :=
  perform Speech_stop ;;
  setSelectedStop (Some stop) ;;
  let cleanChunks := cleanChunks_of (description stop) in
  setSentences cleanChunks ;;
  setCurrentIdx 0 ;;
  set_currentIdxRef 0 ;;
  setIsSpeaking true ;;
  setIsPaused false ;;
  set_isPausedRef false ;;
  perform (Speech_speak (initialText (title stop) cleanChunks)
             (mkOptions es_ES None None
                (SelectStop_onDone cleanChunks) SelectStop_onError)).

(** [isPaused] and [sentences] are the values of the render the handler
    was created in. *)
Definition togglePlayback : M unit :=
  paused <- read isPaused ;;
  if paused then
    script <- read sentences ;;
    setIsPaused false ;;
    set_isPausedRef false ;;
    index <- read currentIdxRef ;;
    playFrom script index
  else
    setIsPaused true ;;
    set_isPausedRef true ;;
    perform Speech_pause.

Definition stopPlayback : M unit :=
  perform Speech_stop ;;
  setIsSpeaking false ;;
  setIsPaused false ;;
  setSelectedStop None ;;
  setSentences [] ;;
  setCurrentIdx 0.

(** *** The closures given to the engine *)

(** The body of an [onDone] closure. *)
Definition run_onDone (cb : onDone_closure) : M unit :=
  match cb with
  | SelectStop_onDone cleanChunks =>
      paused <- read isPausedRef ;;
      if (1 <? length cleanChunks) && negb paused then
        playFrom (skipn 1 cleanChunks) 1
      else
        setIsSpeaking false
  | PlayFrom_onDone array index =>
      paused <- read isPausedRef ;;
      if negb paused then playFrom array (index + 1) else ret tt
  end.

(** The body of an [onError] closure, given the engine's error. *)
Definition run_onError (cb : onError_closure) (err : jsstring) : M unit :=
  match cb with
  | SelectStop_onError =>
      perform (console_log [err]) ;;
      perform (Alert_alert (js "Error")
                 (js "No se pudo reproducir el audio. Verifica ajustes de voz."))
  | PlayFrom_onError =>
      perform (console_log [js "Speech error:"; err]) ;;
      perform (Alert_alert (js "Error de voz")
                 (js "No se pudo reproducir. Verifica volumen o modo silencio.")) ;;
      setIsSpeaking false
  end.

(** *** Events *)

Inductive event : Type :=
| PressMarker (stop : Stop)
| PressPlay
| PressStop
| Done (cb : onDone_closure)
| Failed (cb : onError_closure) (err : jsstring).

Definition dispatch (e : event) : M unit :=
  match e with
  | PressMarker stop => handleSelectStop stop
  | PressPlay => togglePlayback
  | PressStop => stopPlayback
  | Done cb => run_onDone cb
  | Failed cb err => run_onError cb err
  end.

Fixpoint dispatch_all (es : list event) : M unit :=
  match es with
  | [] => ret tt
  | e :: es' => dispatch e ;; dispatch_all es'
  end.

(** *** The three playback states

    The screen keeps two flags; the label of the play button (lines
    316-318) reads them as three states: "REANUDAR" when [isPaused],
    else "PAUSAR" when [isSpeaking], else "REPRODUCIR". *)
Inductive PlaybackState : Type := Idle | Speaking | Paused.

Definition playbackState (c : Component) : PlaybackState :=
  if isPaused c then Paused else if isSpeaking c then Speaking else Idle.

End TourMapScreen.

Import TourMapScreen.

(** ** Stops and predicates used in the statements *)

Module Scenario.

(** A description that is missing or holds nothing but white space. *)
Definition blank (description : option jsstring) : Prop :=
  match description with
  | None => True
  | Some s => forallb is_white_space s = true
  end.

Definition stop_with (stop_title : string) (description : option jsstring)
  : Stop :=
  mkStop (js "stop-1") (js stop_title) description (0 # 1)%Q (0 # 1)%Q 1%Z.

Definition giralda : Stop :=
  stop_with "Giralda" (Some (js "One. Two. Three. Four. Five.")).

Definition alcazar : Stop :=
  stop_with "Alcazar" (Some (js "Uno.")).

Definition triana : Stop :=
  stop_with "Triana" (Some (js "A. B. C.")).

(** The units of [giralda]'s script. *)
Definition giralda_script : list jsstring :=
  [js "One."; js "Two."; js "Three."; js "Four."; js "Five."].

(** The options [playFrom] gives to the engine. *)
Definition unit_options (array : list jsstring) (index : nat) : SpeechOptions :=
  mkOptions es_ES (Some (1 # 1)%Q) (Some (9 # 10)%Q)
    (PlayFrom_onDone array index) PlayFrom_onError.

(** The options [handleSelectStop] gives to the engine. *)
Definition opening_options (cleanChunks : list jsstring) : SpeechOptions :=
  mkOptions es_ES None None (SelectStop_onDone cleanChunks) SelectStop_onError.

(** The component after the given events, starting from [initial]. *)
Definition after (es : list event) : Component :=
  fst (run (dispatch_all es) initial).

End Scenario.

Import Scenario.

(** ** Sessions of the screen with a well-behaved engine

    The reachability statements below assume the discipline that the
    screen itself relies on: the engine holds at most one utterance, the
    one given by the latest [Speech.speak]; it delivers one completion or
    one error for it; [Speech.stop] drops it without a completion.  The
    play and stop buttons exist only while a stop is selected, since the
    audio panel is rendered under [selectedStop &&] (line 283). *)

Module Session.

(** The utterance the engine holds once the screen has made the calls
    [out], given the one it held before. *)
Fixpoint in_flight_after (held : option SpeechOptions) (out : list call)
  : option SpeechOptions :=
  match out with
  | [] => held
  | Speech_stop :: out' => in_flight_after None out'
  | Speech_speak _ options :: out' => in_flight_after (Some options) out'
  | _ :: out' => in_flight_after held out'
  end.

Record session : Type := mkSession {
  screen : Component;
  in_flight : option SpeechOptions
}.

Definition enabled (e : event) (s : session) : Prop :=
  match e with
  | PressMarker _ => True
  | PressPlay => selectedStop (screen s) <> None
  | PressStop => selectedStop (screen s) <> None
  | Done cb => exists o, in_flight s = Some o /\ onDone o = cb
  | Failed cb _ => exists o, in_flight s = Some o /\ onError o = cb
  end.

(** A callback ends the utterance it belongs to. *)
Definition held_during (e : event) (s : session) : option SpeechOptions :=
  match e with
  | Done _ => None
  | Failed _ _ => None
  | _ => in_flight s
  end.

Definition fire (e : event) (s : session) : session :=
  mkSession (fst (run (dispatch e) (screen s)))
            (in_flight_after (held_during e s) (snd (run (dispatch e) (screen s)))).

Inductive reachable : session -> Prop :=
| reachable_initial : reachable (mkSession initial None)
| reachable_fire (e : event) (s : session) :
    reachable s -> enabled e s -> reachable (fire e s).

(** A completion closure whose captured array is the current script or the
    script without its first unit, and whose index is inside that array. *)
Definition closure_of_script (c : Component) (cb : onDone_closure) : Prop :=
  match cb with
  | SelectStop_onDone cleanChunks => cleanChunks = sentences c
  | PlayFrom_onDone array index =>
      index < length array /\
      (array = sentences c \/ array = skipn 1 (sentences c))
  end.

(** While a stop is selected the script is the one built from its
    description, the cursor is inside it, and the refs mirror the cells; the
    utterance in flight, if any, belongs to the current script. *)
Definition consistent (s : session) : Prop :=
  (forall stop,
      selectedStop (screen s) = Some stop ->
      sentences (screen s) = cleanChunks_of (description stop) /\
      currentIdx (screen s) < length (sentences (screen s)) /\
      currentIdxRef (screen s) = currentIdx (screen s) /\
      isPausedRef (screen s) = isPaused (screen s)) /\
  (forall o,
      in_flight s = Some o ->
      selectedStop (screen s) <> None /\
      closure_of_script (screen s) (onDone o)).

End Session.

Import Session.

(** ** The sentences of the audio panel as rendered (lines 292-306 of the
    source) *)

Module Panel.

(** [idx === currentIdx && isSpeaking && !isPaused]: whether the sentence at
    [idx] gets [styles.sentenceActive]. *)
Definition sentenceActive (c : Component) (idx : nat) : bool :=
  (idx =? currentIdx c) && isSpeaking c && negb (isPaused c).

(** The indices of [sentences.map] whose sentence is rendered active. *)
Definition activeSentences (c : Component) : list nat :=
  filter (sentenceActive c) (seq 0 (length (sentences c))).

(** The text of each sentence as rendered: [sentence.trim()] followed by a
    space. *)
Definition renderedSentences (c : Component) : list jsstring :=
  map (fun sentence => trim sentence ++ js " ") (sentences c).

End Panel.

Import Panel.

(** ** Narration left to run *)

Module Playthrough.

Definition is_speak (c : call) : bool :=
  match c with
  | Speech_speak _ _ => true
  | _ => false
  end.

(** The session after the engine has completed, one after the other and
    [fuel] times at most, the utterance it holds, with the calls the
    completion closures made. *)
Fixpoint play_out (fuel : nat) (s : session) : session * list call :=
  match fuel with
  | O => (s, [])
  | S fuel' =>
      match in_flight s with
      | None => (s, [])
      | Some o =>
          let r := play_out fuel' (fire (Done (onDone o)) s) in
          (fst r, snd (run (dispatch (Done (onDone o))) (screen s)) ++ snd r)
      end
  end.

(** The utterance [playFrom] makes of the unit at [index] of [array]. *)
Definition unit_utterance (array : list jsstring) (index : nat) : call :=
  Speech_speak (trim (nth index array [])) (unit_options array index).

End Playthrough.

Import Playthrough.

(** ** The printable report ([generateTourReportHTML]) *)

Module GenerateTourReport.

(** The double quote, which the pieces of the template are spliced with. *)
Definition dq : jsstring := [34%N].

(** The template of [let html], up to the first [tourTitle]. *)
Definition head_to_title : jsstring :=
  js "
<!DOCTYPE html>
<html lang=" ++ dq ++ js "es" ++ dq ++ js ">
<head>
  <meta charset=" ++ dq ++ js "UTF-8" ++ dq ++ js ">
  <meta name=" ++ dq ++ js "viewport" ++ dq ++ js " content=" ++ dq ++ js "width=device-width, initial-scale=1.0" ++ dq ++ js ">
  <title>".

(** From the page title to the heading. *)
Definition title_to_heading : jsstring :=
  js " - Informe de Paradas</title>

  <!-- Todo el CSS est" ++ [225%N] ++ js " embebido aqu" ++ [237%N] ++ js " para que el HTML sea portable (por ejemplo para PDF) -->
  <style>
    body {
      font-family: -apple-system, BlinkMacSystemFont, 'Segoe UI', Roboto, sans-serif;
      margin: 0;
      padding: 40px 30px;
      background: #f8f9fa;
      color: #333;
      line-height: 1.6;
    }
    .container {
      max-width: 800px;
      margin: 0 auto;
      background: white;
      padding: 40px;
      border-radius: 12px;
      box-shadow: 0 4px 20px rgba(0,0,0,0.1);
    }
    .header {
      text-align: center;
      margin-bottom: 40px;
    }
    .cover-image {
      width: 100%;
      max-height: 300px;
      object-fit: cover;
      border-radius: 12px;
      margin: 20px 0 30px 0;
      box-shadow: 0 4px 15px rgba(0,0,0,0.15);
    }
    h1 {
      color: #2D5A4C;
      font-size: 32px;
      margin: 0 0 10px 0;
    }
    .subtitle {
      color: #636E72;
      font-size: 18px;
      margin: 0;
    }
    h2 {
      color: #5CC2A3;
      border-bottom: 3px solid #5CC2A3;
      padding-bottom: 10px;
      margin: 40px 0 20px 0;
      font-size: 24px;
    }
    .stop-list { margin: 0; padding: 0; }
    .stop-item {
      margin: 24px 0;
      padding: 20px;
      background: #F2F9F7;
      border-radius: 12px;
      border-left: 6px solid #5CC2A3;
      position: relative;
    }
    .stop-number {
      position: absolute;
      top: -12px;
      left: -12px;
      background: #5CC2A3;
      color: white;
      width: 36px;
      height: 36px;
      border-radius: 50%;
      display: flex;
      align-items: center;
      justify-content: center;
      font-weight: bold;
      font-size: 18px;
      box-shadow: 0 2px 8px rgba(0,0,0,0.2);
    }
    .stop-title {
      font-size: 20px;
      color: #2D5A4C;
      margin: 0 0 10px 0;
    }
    .stop-desc {
      margin: 0;
      color: #555;
      font-size: 15px;
    }
    .footer {
      text-align: center;
      margin-top: 60px;
      color: #888;
      font-size: 14px;
      border-top: 1px solid #eee;
      padding-top: 20px;
    }
  </style>
</head>

<body>
  <div class=" ++ dq ++ js "container" ++ dq ++ js ">

    <!-- Cabecera del documento -->
    <div class=" ++ dq ++ js "header" ++ dq ++ js ">
      <h1>".

(** From the heading to the cover image. *)
Definition heading_to_cover : jsstring :=
  js "</h1>
      <p class=" ++ dq ++ js "subtitle" ++ dq ++ js ">Informe de paradas del tour</p>

      <!-- Si hay imagen de portada la mostramos, si no no aparece nada -->
      ".

(** From the cover image to the number of stops. *)
Definition cover_to_count : jsstring :=
  js "
    </div>

    <!-- N" ++ [250%N] ++ js "mero total de paradas -->
    <h2>Paradas registradas (".

(** From the number of stops to the start of the list. *)
Definition count_to_list : jsstring :=
  js ")</h2>

    <div class=" ++ dq ++ js "stop-list" ++ dq ++ js ">
  ".

(** The paragraph appended when there is no stop. *)
Definition no_stops_message : jsstring :=
  js "
      <p style=" ++ dq ++ js "text-align:center; color:#888; font-style:italic;" ++ dq ++ js ">
        No hay paradas registradas en este tour.
      </p>
    ".

(** The block of a stop, up to its number. *)
Definition item_to_number : jsstring :=
  js "
        <div class=" ++ dq ++ js "stop-item" ++ dq ++ js ">
          <div class=" ++ dq ++ js "stop-number" ++ dq ++ js ">".

(** From the number of a stop to its title. *)
Definition number_to_title : jsstring :=
  js "</div>
          <h3 class=" ++ dq ++ js "stop-title" ++ dq ++ js ">".

(** From the title of a stop to its description. *)
Definition title_to_description : jsstring :=
  js "</h3>

          <!-- Si no hay descripci" ++ [243%N] ++ js "n mostramos texto por defecto -->
          <p class=" ++ dq ++ js "stop-desc" ++ dq ++ js ">
            ".

(** From the description of a stop to the end of its block. *)
Definition description_to_end : jsstring :=
  js "
          </p>
        </div>
      ".

(** The footer, up to the date. *)
Definition list_to_date : jsstring :=
  js "
    </div>

    <div class=" ++ dq ++ js "footer" ++ dq ++ js ">
      Generado desde la app el ".

(** From the date to the time. *)
Definition date_to_time : jsstring :=
  js " " ++ [8226%N] ++ js " 
      ".

(** From the time to the end of the document. *)
Definition time_to_end : jsstring :=
  js "
    </div>

  </div>
</body>
</html>".

(** The text a template literal gives for an integer that a double holds
    exactly and prints in plain decimal: every [n] with [|n| < 2^53].  The
    number of stops of a tour is always such, and so is a stop's order
    unless the form was given more than fifteen digits.  For larger values
    JavaScript prints the nearest double, from 10^21 on in exponent
    notation; those are outside this definition. *)
Definition number_text (n : Z) : jsstring :=
  js (NilZero.string_of_int (Z.to_int n)).

(** The [img] element, present when [coverImageUrl] is a non-empty string. *)
Definition cover_image (coverImageUrl : option jsstring) : jsstring :=
  match coverImageUrl with
  | Some url =>
      if truthy url then
        js "<img src=" ++ dq ++ url ++ dq ++ js " class=" ++ dq
           ++ js "cover-image" ++ dq ++ js " alt=" ++ dq
           ++ js "Portada del tour" ++ dq ++ js ">"
      else []
  | None => []
  end.

(** [stop.stop_order || index + 1].  The order is an integer: the form
    stores [parseInt(order)] and the map screen replaces what is not a number
    by 0. *)
Definition shown_number (stop : Stop) (index : nat) : Z :=
  if (stop_order stop =? 0)%Z then (Z.of_nat index + 1)%Z else stop_order stop.

Definition stop_block (stop : Stop) (index : nat) : jsstring :=
  item_to_number ++ number_text (shown_number stop index)
    ++ number_to_title ++ title stop
    ++ title_to_description ++ fullText_of (description stop)
    ++ description_to_end.

(** [stops.forEach((stop, index) => { html += ... })], from [index] on. *)
Fixpoint forEach_stop (stops : list Stop) (index : nat) (html : jsstring)
  : jsstring :=
  match stops with
  | [] => html
  | stop :: rest => forEach_stop rest (S index) (html ++ stop_block stop index)
  end.

(** [today] and [now] are what [toLocaleDateString] and [toLocaleTimeString]
    return when the report is made. *)
Definition generateTourReportHTML (today now : jsstring) (tourTitle : jsstring)
           (stops : list Stop) (coverImageUrl : option jsstring) : jsstring :=
  let html :=
    head_to_title ++ tourTitle ++ title_to_heading ++ tourTitle
      ++ heading_to_cover ++ cover_image coverImageUrl
      ++ cover_to_count ++ number_text (Z.of_nat (length stops))
      ++ count_to_list in
  let html :=
    if length stops =? 0 then html ++ no_stops_message
    else forEach_stop stops 0 html in
  html ++ list_to_date ++ today ++ date_to_time ++ now ++ time_to_end.

End GenerateTourReport.

(** ** Making and sharing the PDF ([generateAndShareTourPDF]) *)

Module PdfUtils.

(** How a promise of the platform settles. *)
Inductive settled (A : Type) : Type :=
| Resolved (value : A)
| Rejected (error : jsstring).

Arguments Resolved {A} value.
Arguments Rejected {A} error.

(** What the device answers: the two texts of the clock, the file made of
    an HTML page, whether sharing is available, and what sharing a file
    gives. *)
Record Platform : Type := mkPlatform {
  toLocaleDateString : jsstring;
  toLocaleTimeString : jsstring;
  printToFileAsync : jsstring -> settled jsstring;
  isAvailableAsync : settled bool;
  shareAsync : jsstring -> settled unit
}.

Inductive outside_call : Type :=
| Print_printToFileAsync (html : jsstring) (width height : N)
| Sharing_isAvailableAsync
| Sharing_shareAsync (uri dialogTitle mimeType : jsstring)
| Alert_alert (title message : jsstring)
| console_error (args : list jsstring).

(** An asynchronous computation: the calls it made and how it settled. *)
Definition Task (A : Type) : Type := (list outside_call * settled A)%type.

Definition Task_ret {A : Type} (a : A) : Task A := ([], Resolved a).

Definition Task_bind {A B : Type} (t : Task A) (k : A -> Task B) : Task B :=
  match snd t with
  | Resolved a => (fst t ++ fst (k a), snd (k a))
  | Rejected error => (fst t, Rejected error)
  end.

#[local] Instance Monad_Task : Monad Task :=
  {| ret := @Task_ret; bind := @Task_bind |}.

(** [await] of a call to the platform. *)
Definition await {A : Type} (c : outside_call) (answer : settled A) : Task A :=
  ([c], answer).

(** A call that returns at once. *)
Definition call_out (c : outside_call) : Task unit := ([c], Resolved tt).

(** [try { body } catch (error) { handler }]. *)
Definition try_catch {A : Type} (body : Task A) (handler : jsstring -> Task A)
  : Task A :=
  match snd body with
  | Resolved a => body
  | Rejected error => (fst body ++ fst (handler error), snd (handler error))
  end.

Definition generateAndShareTourPDF (platform : Platform) (tourTitle : jsstring)
           (stops : list Stop) (coverImageUrl : option jsstring) : Task unit :=
  try_catch
    (let html :=
       GenerateTourReport.generateTourReportHTML
         (toLocaleDateString platform) (toLocaleTimeString platform)
         tourTitle stops coverImageUrl in
     uri <- await (Print_printToFileAsync html 595 842)
                  (printToFileAsync platform html) ;;
     canShare <- await Sharing_isAvailableAsync (isAvailableAsync platform) ;;
     if (canShare : bool) then
       await (Sharing_shareAsync uri (js "Informe del tour: " ++ tourTitle)
                (js "application/pdf"))
             (shareAsync platform uri)
     else
       call_out (Alert_alert (js "No disponible")
                   (js "Compartir no est" ++ [225%N]
                       ++ js " disponible en este dispositivo.")))
    (fun error =>
       call_out (console_error [js "Error generando PDF:"; error]) ;;
       call_out (Alert_alert (js "Error")
                   (js "No se pudo generar el informe PDF."))).

Definition is_alert (c : outside_call) : bool :=
  match c with
  | Alert_alert _ _ => true
  | _ => false
  end.

Definition error_alert : outside_call :=
  Alert_alert (js "Error") (js "No se pudo generar el informe PDF.").

End PdfUtils.

(** * Properties *)

(** ** Trimming *)

Section Trim.

Variable p : code_unit -> bool.

Lemma drop_while_all (s : jsstring) :
  forallb p s = true -> drop_while p s = [].
Proof.
  induction s as [|c s IH]; simpl; [reflexivity|].
  destruct (p c); simpl; [exact IH | discriminate].
Qed.

Lemma drop_while_keeps (s : jsstring) (c : code_unit) :
  In c s -> p c = false -> In c (drop_while p s).
Proof.
  intros Hin Hc. induction s as [|d s IH]; simpl in *; [contradiction|].
  destruct (p d) eqn:Hd.
  - destruct Hin as [->|Hin]; [congruence | auto].
  - exact Hin.
Qed.

Lemma drop_while_head (s r : jsstring) (c : code_unit) :
  drop_while p s = c :: r -> p c = false.
Proof.
  induction s as [|d s IH]; simpl; [discriminate|].
  destruct (p d) eqn:Hd; [exact IH|].
  intros [= <- _]. exact Hd.
Qed.

Lemma drop_while_stable (s : jsstring) :
  match s with [] => True | c :: _ => p c = false end ->
  drop_while p s = s.
Proof. destruct s as [|c s]; simpl; [reflexivity|]. intros ->. reflexivity. Qed.

Lemma drop_while_suffix (s : jsstring) :
  exists w, s = w ++ drop_while p s /\ forallb p w = true.
Proof.
  induction s as [|c s [w [IH Hw]]]; simpl.
  - exists []. split; reflexivity.
  - destruct (p c) eqn:Hc.
    + exists (c :: w). simpl. rewrite Hc, Hw. split; [f_equal; exact IH | reflexivity].
    + exists []. split; reflexivity.
Qed.

Lemma drop_while_idem (s : jsstring) :
  drop_while p (drop_while p s) = drop_while p s.
Proof.
  apply drop_while_stable.
  destruct (drop_while p s) as [|c r] eqn:E; [exact I|].
  eapply drop_while_head; exact E.
Qed.

End Trim.

Lemma trim_keeps (s : jsstring) (c : code_unit) :
  In c s -> is_white_space c = false -> In c (trim s).
Proof.
  intros Hin Hc. unfold trim, trimEnd, trimStart.
  rewrite <- in_rev. apply drop_while_keeps; [|exact Hc].
  rewrite <- in_rev. apply drop_while_keeps; assumption.
Qed.

Lemma trim_white (s : jsstring) :
  forallb is_white_space s = true -> trim s = [].
Proof.
  intros H. unfold trim, trimStart. rewrite (drop_while_all _ _ H). reflexivity.
Qed.

Lemma black_unit_exists (s : jsstring) :
  forallb is_white_space s = false ->
  exists c, In c s /\ is_white_space c = false.
Proof.
  induction s as [|d s IH]; simpl; [discriminate|].
  destruct (is_white_space d) eqn:Hd; simpl.
  - intros H. destruct (IH H) as [c [Hin Hc]]. exists c. auto.
  - intros _. exists d. auto.
Qed.

Lemma trim_nonempty_black (s : jsstring) :
  trim s <> [] -> exists c, In c s /\ is_white_space c = false.
Proof.
  intros H. apply black_unit_exists.
  destruct (forallb is_white_space s) eqn:E; [|reflexivity].
  exfalso. apply H. apply trim_white. exact E.
Qed.

Lemma black_trim_nonempty (s : jsstring) (c : code_unit) :
  In c s -> is_white_space c = false -> trim s <> [].
Proof.
  intros Hin Hc E. pose proof (trim_keeps s c Hin Hc) as H.
  rewrite E in H. exact H.
Qed.

(** [trim] is idempotent: a script unit, already trimmed when the script is
    built, is spoken and displayed unchanged by the later [.trim()] calls. *)
Lemma trim_idem (s : jsstring) : trim (trim s) = trim s.
Proof.
  unfold trim, trimEnd, trimStart.
  set (t := drop_while is_white_space s).
  set (v := drop_while is_white_space (rev t)).
  assert (Hstart : drop_while is_white_space (rev v) = rev v).
  { apply drop_while_stable.
    destruct (rev v) as [|x r] eqn:E; [exact I|].
    destruct (drop_while_suffix is_white_space (rev t)) as [w [Hw _]].
    fold v in Hw. apply (f_equal (@rev _)) in Hw.
    rewrite rev_involutive, rev_app_distr, E in Hw. simpl in Hw.
    eapply drop_while_head with (s := s). exact Hw. }
  rewrite Hstart, rev_involutive. unfold v.
  rewrite drop_while_idem. reflexivity.
Qed.

(** ** The sentence expression *)

Lemma terminator_is_black (c : code_unit) :
  is_terminator c = true -> is_white_space c = false.
Proof.
  unfold is_terminator. intros H.
  apply orb_true_iff in H. destruct H as [H|H].
  - apply orb_true_iff in H.
    destruct H as [H|H]; apply N.eqb_eq in H; subst c; reflexivity.
  - apply N.eqb_eq in H; subst c; reflexivity.
Qed.

(** With the identity continuation the greedy [C+] consumes the whole run. *)
Lemma plus_class_run (p : code_unit -> bool) (s : jsstring) :
  plus_class p s Some =
  match s with
  | [] => None
  | c :: s' => if p c then Some (drop_while p s') else None
  end.
Proof.
  induction s as [|c s IH]; simpl; [reflexivity|].
  destruct (p c); [|reflexivity].
  rewrite IH. destruct s as [|d s]; simpl; [reflexivity|].
  destruct (p d); reflexivity.
Qed.

(** Backtracking never finds anything the greedy spans do not: an attempt
    succeeds exactly when a non-empty run of non-terminators is followed by
    a terminator, and then it takes the whole run of terminators. *)
Lemma exec_at_spans (s : jsstring) :
  exec_at s =
  match s with
  | [] => None
  | c :: _ =>
      if not_terminator c then
        match drop_while not_terminator s with
        | [] => None
        | (_ :: _) as r => Some (drop_while is_terminator r)
        end
      else None
  end.
Proof.
  unfold exec_at. induction s as [|c s IH]; [reflexivity|].
  cbn [plus_class]. destruct (not_terminator c) eqn:Hc; [|reflexivity].
  rewrite IH. cbn [drop_while]. rewrite Hc.
  destruct s as [|d s]; [reflexivity|].
  cbn [drop_while]. destruct (not_terminator d) eqn:Hd.
  - destruct (drop_while not_terminator s) as [|e r] eqn:E; [|reflexivity].
    rewrite plus_class_run. unfold not_terminator in Hd.
    apply negb_true_iff in Hd. rewrite Hd. reflexivity.
  - rewrite plus_class_run. unfold not_terminator in Hd.
    apply negb_false_iff in Hd. rewrite Hd. reflexivity.
Qed.

(** The shape of a successful attempt. *)
Lemma exec_at_shape (s r : jsstring) :
  exec_at s = Some r ->
  exists a b,
    s = a ++ b ++ r /\
    a <> [] /\ forallb not_terminator a = true /\
    b <> [] /\ forallb is_terminator b = true /\
    match r with [] => True | c :: _ => is_terminator c = false end.
Proof.
  rewrite exec_at_spans. destruct s as [|c s]; [discriminate|].
  destruct (not_terminator c) eqn:Hc; [|discriminate].
  destruct (drop_while_suffix not_terminator (c :: s)) as [a [Ha Hall]].
  destruct (drop_while not_terminator (c :: s)) as [|t r1] eqn:E1; [discriminate|].
  destruct (drop_while_suffix is_terminator (t :: r1)) as [b [Hb Hbll]].
  remember (drop_while is_terminator (t :: r1)) as r' eqn:Er.
  intros [= <-].
  exists a, b. rewrite <- Hb. split; [exact Ha|].
  assert (Ht : not_terminator t = false) by (eapply drop_while_head; exact E1).
  unfold not_terminator in Ht. apply negb_false_iff in Ht.
  repeat split.
  - intros ->. simpl in Ha. injection Ha as -> _. unfold not_terminator in Hc.
    rewrite Ht in Hc. discriminate.
  - exact Hall.
  - intros ->. simpl in Hb.
    assert (Hd : is_terminator t = false)
      by (eapply drop_while_head; rewrite <- Er; symmetry; exact Hb).
    congruence.
  - exact Hbll.
  - destruct r' as [|x r]; [exact I|].
    eapply drop_while_head; symmetry; exact Er.
Qed.

(** What one successful attempt contributes to the result of the scan. *)
Lemma exec_at_match (s r : jsstring) :
  exec_at s = Some r ->
  exists m,
    s = m ++ r /\ firstn (length s - length r) s = m /\
    m <> [] /\ (exists t, In t m /\ is_terminator t = true).
Proof.
  intros H. destruct (exec_at_shape s r H) as (a & b & Hs & Ha & _ & Hb & Hbt & _).
  exists (a ++ b). rewrite Hs, app_assoc.
  split; [reflexivity|]. split.
  - rewrite length_app, Nat.add_sub, firstn_app, Nat.sub_diag, firstn_all.
    simpl. apply app_nil_r.
  - split.
    + intros E. apply app_eq_nil in E. tauto.
    + destruct b as [|t b]; [contradiction|]. exists t. split.
      * apply in_or_app. right. left. reflexivity.
      * simpl in Hbt. apply andb_true_iff in Hbt. tauto.
Qed.

Lemma match_from_skip (x r : jsstring) :
  match_from (x ++ r) (length x) = match_from r 0.
Proof. induction x as [|c x IH]; simpl; [reflexivity | exact IH]. Qed.

(** The scan as a recursion over matches: a match [m] followed by [r]
    yields [m] and the scan resumes at [r]. *)
Lemma match_from_hit (s r : jsstring) :
  exec_at s = Some r ->
  exists m, s = m ++ r /\ m <> [] /\ match_from s 0 = m :: match_from r 0.
Proof.
  intros H. destruct (exec_at_match s r H) as (m & Hs & Hm & Hne & _).
  exists m. split; [exact Hs|]. split; [exact Hne|].
  destruct s as [|c s]; [destruct m; [contradiction | discriminate]|].
  cbn [match_from]. rewrite H. cbv zeta. rewrite Hm. f_equal.
  destruct m as [|d m]; [contradiction|].
  injection Hs as _ ->.
  replace (length (c :: m ++ r) - length r - 1) with (length m)
    by (cbn [length]; rewrite length_app; lia).
  apply match_from_skip.
Qed.

Lemma match_from_miss (c : code_unit) (s : jsstring) :
  exec_at (c :: s) = None -> match_from (c :: s) 0 = match_from s 0.
Proof. intros H. cbn [match_from]. rewrite H. reflexivity. Qed.

(** Every match ends in a terminator, hence holds one. *)
Lemma match_from_terminated (s : jsstring) (skip : nat) :
  Forall (fun m => exists t, In t m /\ is_terminator t = true)
         (match_from s skip).
Proof.
  revert skip. induction s as [|c s IH]; intros skip; [constructor|].
  cbn [match_from]. destruct skip as [|n]; [|apply IH].
  destruct (exec_at (c :: s)) as [r|] eqn:E; [|apply IH].
  constructor; [|apply IH].
  destruct (exec_at_match _ _ E) as (m & _ & -> & _ & Ht). exact Ht.
Qed.

(** *** What the scan keeps and what it drops *)

Lemma drop_while_nil_all (p : code_unit -> bool) (s : jsstring) :
  drop_while p s = [] -> forallb p s = true.
Proof.
  induction s as [|c s IH]; simpl; [reflexivity|].
  destruct (p c); [exact IH | discriminate].
Qed.

(** No attempt succeeds in a text without terminator. *)
Lemma match_from_no_terminator (s : jsstring) :
  forallb not_terminator s = true -> match_from s 0 = [].
Proof.
  induction s as [|c s IH]; [reflexivity|].
  intros H. rewrite match_from_miss.
  - apply IH. simpl in H. apply andb_true_iff in H. tauto.
  - rewrite exec_at_spans. rewrite (drop_while_all _ _ H).
    destruct (not_terminator c); reflexivity.
Qed.

(** From a position that is not a terminator the matches tile the text up
    to a last fragment without terminator. *)
Lemma match_from_tiles (n : nat) :
  forall s : jsstring,
    length s <= n ->
    match s with [] => True | c :: _ => is_terminator c = false end ->
    exists tail,
      s = concat (match_from s 0) ++ tail /\ forallb not_terminator tail = true.
Proof.
  induction n as [|n IH]; intros s Hlen Hhead.
  - destruct s; [|simpl in Hlen; lia]. exists []. split; reflexivity.
  - destruct (exec_at s) as [r|] eqn:E.
    + destruct (exec_at_shape s r E) as (a & b & Hs & Ha & _ & _ & _ & Hr).
      destruct (match_from_hit s r E) as (m & Hm & Hne & Hscan).
      assert (Hshort : length r <= n).
      { apply (f_equal (@length _)) in Hm. rewrite length_app in Hm.
        destruct m; [contradiction|]. simpl in Hm. lia. }
      destruct (IH r Hshort Hr) as (tail & Hr' & Htail).
      exists tail. split; [|exact Htail].
      rewrite Hscan. cbn [concat]. rewrite <- app_assoc, <- Hr'. exact Hm.
    + exists s. destruct s as [|c s]; [split; reflexivity|].
      rewrite exec_at_spans in E. unfold not_terminator in E at 1.
      rewrite Hhead in E. cbn [negb] in E.
      assert (Hall : forallb not_terminator (c :: s) = true).
      { apply drop_while_nil_all.
        destruct (drop_while not_terminator (c :: s)); [reflexivity | discriminate]. }
      rewrite (match_from_no_terminator _ Hall). split; [reflexivity | exact Hall].
Qed.

(** The matches of the scan, concatenated, are the text without its leading
    terminators and without its last fragment when that fragment has no
    terminator: these two pieces, and only they, are in no match. *)
Lemma scan_decomposition (s : jsstring) :
  exists lead tail,
    s = lead ++ concat (match_from s 0) ++ tail /\
    forallb is_terminator lead = true /\
    forallb not_terminator tail = true.
Proof.
  induction s as [|c s IH].
  - exists [], []. repeat split.
  - destruct (is_terminator c) eqn:Hc.
    + destruct IH as (lead & tail & Hs & Hl & Ht).
      exists (c :: lead), tail. rewrite match_from_miss.
      * simpl. rewrite Hc, Hl. rewrite Hs at 1. repeat split. exact Ht.
      * rewrite exec_at_spans. unfold not_terminator. rewrite Hc. reflexivity.
    + destruct (match_from_tiles (length (c :: s)) (c :: s) (le_n _) Hc)
        as (tail & Hs & Ht).
      exists [], tail. repeat split; assumption.
Qed.

(** Every match is a run without terminator followed by a run of
    terminators, both non-empty. *)
Lemma match_from_sentences (s : jsstring) (skip : nat) :
  Forall (fun m => exists a b,
              m = a ++ b /\ a <> [] /\ forallb not_terminator a = true /\
              b <> [] /\ forallb is_terminator b = true)
         (match_from s skip).
Proof.
  revert skip. induction s as [|c s IH]; intros skip; [constructor|].
  cbn [match_from]. destruct skip as [|n]; [|apply IH].
  destruct (exec_at (c :: s)) as [r|] eqn:E; [|apply IH].
  constructor; [|apply IH].
  destruct (exec_at_match _ _ E) as (m & Hm & -> & _ & _).
  destruct (exec_at_shape _ _ E) as (a & b & Hs & Ha & Hall & Hb & Hbll & _).
  exists a, b. repeat split; try assumption.
  rewrite Hs, app_assoc in Hm. apply app_inv_tail in Hm. symmetry. exact Hm.
Qed.

(** ** Segmentation *)

Lemma placeholder_chunks : chunks_of placeholder = [placeholder].
Proof. vm_compute. reflexivity. Qed.

Lemma placeholder_black :
  exists c, In c placeholder /\ is_white_space c = false.
Proof. exists 83%N. split; [left; reflexivity | reflexivity]. Qed.

(** The text handed to the expression always holds a unit that is not white
    space. *)
Lemma fullText_black (description : option jsstring) :
  exists c, In c (fullText_of description) /\ is_white_space c = false.
Proof.
  unfold fullText_of. destruct description as [s|]; cbn [option_map or_else].
  - destruct (trim s) as [|d t] eqn:E; cbn [truthy].
    + exact placeholder_black.
    + assert (Hne : trim s <> []) by (rewrite E; discriminate).
      destruct (trim_nonempty_black s Hne) as [c [Hin Hc]].
      exists c. split; [|exact Hc]. rewrite <- E. apply trim_keeps; assumption.
  - exact placeholder_black.
Qed.

Lemma fullText_blank (description : option jsstring) :
  blank description -> fullText_of description = placeholder.
Proof.
  unfold fullText_of, blank. destruct description as [s|]; simpl; [|reflexivity].
  intros H. rewrite (trim_white s H). reflexivity.
Qed.

(** Every chunk holds a unit that is not white space. *)
Lemma chunks_black (description : option jsstring) :
  chunks_of (fullText_of description) <> [] /\
  Forall (fun m => exists c, In c m /\ is_white_space c = false)
         (chunks_of (fullText_of description)).
Proof.
  unfold chunks_of, match_g.
  pose proof (match_from_terminated (fullText_of description) 0) as H.
  destruct (match_from (fullText_of description) 0) as [|m ms].
  - split; [discriminate|]. constructor; [|constructor].
    apply fullText_black.
  - split; [discriminate|].
    eapply Forall_impl; [|exact H].
    intros u [t [Hin Ht]]. exists t. split; [exact Hin|].
    apply terminator_is_black. exact Ht.
Qed.

(** The filter of line 159 never removes anything. *)
Lemma cleanChunks_map (description : option jsstring) :
  cleanChunks_of description = map trim (chunks_of (fullText_of description)).
Proof.
  unfold cleanChunks_of.
  destruct (chunks_black description) as [_ H].
  induction H as [|m ms [c [Hin Hc]] _ IH]; simpl; [reflexivity|].
  destruct (trim m) as [|d t] eqn:E.
  - exfalso. exact (black_trim_nonempty m c Hin Hc E).
  - simpl. f_equal. exact IH.
Qed.

(** ** The handlers as functions on the component *)

Ltac run_handler :=
  unfold run, execState, handleSelectStop, togglePlayback, stopPlayback,
    run_onDone, run_onError, playFrom, setSelectedStop, setSentences,
    setCurrentIdx, setIsSpeaking, setIsPaused, set_isPausedRef,
    set_currentIdxRef, update, perform, read;
  cbn.

Lemma run_playFrom_past_end (array : list jsstring) (index : nat) (c : Component) :
  length array <= index ->
  run (playFrom array index) c =
  (mkComponent (selectedStop c) (sentences c) (currentIdx c) false
     (isPaused c) (isPausedRef c) (currentIdxRef c), []).
Proof.
  intros H. apply Nat.leb_le in H. run_handler. rewrite H. reflexivity.
Qed.

Lemma run_playFrom_paused (array : list jsstring) (index : nat) (c : Component) :
  index < length array -> isPausedRef c = true ->
  run (playFrom array index) c = (c, []).
Proof.
  intros H Hp. apply Nat.leb_gt in H. run_handler. rewrite H, Hp.
  destruct c; reflexivity.
Qed.

Lemma run_playFrom_speaks (array : list jsstring) (index : nat) (c : Component)
      (unit_text : jsstring) :
  nth_error array index = Some unit_text -> isPausedRef c = false ->
  run (playFrom array index) c =
  (mkComponent (selectedStop c) (sentences c) index (isSpeaking c)
     (isPaused c) (isPausedRef c) index,
   [Speech_speak (trim unit_text) (unit_options array index)]).
Proof.
  intros Hn Hp.
  assert (H : index < length array) by (apply nth_error_Some; congruence).
  apply Nat.leb_gt in H. unfold unit_options. run_handler.
  rewrite H, Hp, Hn. cbn. rewrite Hp. reflexivity.
Qed.

Lemma run_handleSelectStop (stop : Stop) (c : Component) :
  run (handleSelectStop stop) c =
  (mkComponent (Some stop) (cleanChunks_of (description stop)) 0 true false false 0,
   [Speech_stop;
    Speech_speak (initialText (title stop) (cleanChunks_of (description stop)))
      (opening_options (cleanChunks_of (description stop)))]).
Proof. reflexivity. Qed.

Lemma run_stopPlayback (c : Component) :
  run stopPlayback c =
  (mkComponent None [] 0 false false (isPausedRef c) (currentIdxRef c),
   [Speech_stop]).
Proof. reflexivity. Qed.

Lemma run_togglePlayback_pause (c : Component) :
  isPaused c = false ->
  run togglePlayback c =
  (mkComponent (selectedStop c) (sentences c) (currentIdx c) (isSpeaking c)
     true true (currentIdxRef c), [Speech_pause]).
Proof. destruct c as [s0 ss i sp p pr ir]. simpl. intros ->. reflexivity. Qed.

(** Resuming is [playFrom(sentences, currentIdxRef.current)] with both pause
    flags cleared. *)
Lemma run_togglePlayback_resume (c : Component) :
  isPaused c = true ->
  run togglePlayback c =
  run (playFrom (sentences c) (currentIdxRef c))
      (mkComponent (selectedStop c) (sentences c) (currentIdx c) (isSpeaking c)
         false false (currentIdxRef c)).
Proof. destruct c as [s0 ss i sp p pr ir]. simpl. intros ->. reflexivity. Qed.

Lemma run_PlayFrom_onDone (array : list jsstring) (index : nat) (c : Component) :
  run (run_onDone (PlayFrom_onDone array index)) c =
  if isPausedRef c then (c, []) else run (playFrom array (index + 1)) c.
Proof. destruct c as [s0 ss i sp p pr ir]. destruct pr; reflexivity. Qed.

Lemma run_SelectStop_onDone (cleanChunks : list jsstring) (c : Component) :
  run (run_onDone (SelectStop_onDone cleanChunks)) c =
  if (1 <? length cleanChunks) && negb (isPausedRef c)
  then run (playFrom (skipn 1 cleanChunks) 1) c
  else (mkComponent (selectedStop c) (sentences c) (currentIdx c) false
          (isPaused c) (isPausedRef c) (currentIdxRef c), []).
Proof.
  destruct c as [s0 ss i sp p pr ir].
  destruct cleanChunks as [|u0 [|u1 rest]]; destruct pr; reflexivity.
Qed.

Lemma run_SelectStop_onError (err : jsstring) (c : Component) :
  run (run_onError SelectStop_onError err) c =
  (c, [console_log [err];
       Alert_alert (js "Error")
         (js "No se pudo reproducir el audio. Verifica ajustes de voz.")]).
Proof. destruct c; reflexivity. Qed.

Lemma run_PlayFrom_onError (err : jsstring) (c : Component) :
  run (run_onError PlayFrom_onError err) c =
  (mkComponent (selectedStop c) (sentences c) (currentIdx c) false
     (isPaused c) (isPausedRef c) (currentIdxRef c),
   [console_log [js "Speech error:"; err];
    Alert_alert (js "Error de voz")
      (js "No se pudo reproducir. Verifica volumen o modo silencio.")]).
Proof. reflexivity. Qed.

(** The branch of [playFrom] that would read past the array is dead. *)
Lemma playFrom_reads_inside (array : list jsstring) (index : nat) :
  (length array <=? index) = false -> nth_error array index <> None.
Proof. intros H. apply Nat.leb_gt in H. apply nth_error_Some. exact H. Qed.

(** ** The script built by a selection *)

Lemma cleanChunks_units (description : option jsstring) :
  cleanChunks_of description <> [] /\
  Forall (fun u => u <> [] /\ trim u = u) (cleanChunks_of description).
Proof.
  rewrite cleanChunks_map.
  destruct (chunks_black description) as [Hne H].
  split.
  - destruct (chunks_of (fullText_of description)); [contradiction | discriminate].
  - apply Forall_map. eapply Forall_impl; [|exact H].
    intros m [c [Hin Hc]]. split.
    + exact (black_trim_nonempty m c Hin Hc).
    + apply trim_idem.
Qed.

(** C9. Whatever the description (undefined, empty, white space only, with
    or without terminators, terminators only), the script stored by
    [handleSelectStop] has a first unit, every unit is non-empty after
    trimming (and is in fact already trimmed), and the opening utterance is
    the title, a full stop, a space and that first unit. *)
Theorem selected_script_has_first_unit (stop : Stop) (c : Component) :
  exists first rest,
    sentences (fst (run (handleSelectStop stop) c)) = first :: rest /\
    Forall (fun u => trim u <> [] /\ trim u = u) (first :: rest) /\
    snd (run (handleSelectStop stop) c) =
    [Speech_stop;
     Speech_speak (title stop ++ js ". " ++ first)
       (opening_options (first :: rest))].
Proof.
  rewrite run_handleSelectStop. cbn [fst snd sentences].
  destruct (cleanChunks_units (description stop)) as [Hne Hall].
  destruct (cleanChunks_of (description stop)) as [|first rest]; [contradiction|].
  exists first, rest. split; [reflexivity|]. split.
  - eapply Forall_impl; [|exact Hall].
    intros u [Hu Ht]. rewrite Ht. split; [exact Hu | reflexivity].
  - unfold initialText. cbn [nth_error or_else].
    destruct first; [inversion Hall; tauto | reflexivity].
Qed.

(** C8, as the code has it.  A description that is absent, empty or made of
    white space only gives exactly one unit, the fixed Spanish placeholder
    "Sin descripción disponible.". *)
Theorem blank_description_placeholder (description : option jsstring) :
  blank description -> cleanChunks_of description = [placeholder].
Proof.
  intros H. rewrite cleanChunks_map, (fullText_blank description H).
  rewrite placeholder_chunks. vm_compute. reflexivity.
Qed.

Lemma blank_description_placeholder_witness :
  blank (Some [32%N; 9%N; 160%N; 10%N]) /\
  cleanChunks_of (Some [32%N; 9%N; 160%N; 10%N]) = [placeholder].
Proof.
  assert (H : blank (Some [32%N; 9%N; 160%N; 10%N])) by reflexivity.
  split; [exact H | exact (blank_description_placeholder _ H)].
Defined.

(** C8 as stated fails here.  The empty description does not give the
    English sentence. *)
Lemma empty_description_not_english :
  cleanChunks_of (Some []) <> [js "No description available."].
Proof. vm_compute. discriminate. Qed.

(** C2, at a description with a terminator and an unterminated tail:
    "Hello. World" gives the single unit "Hello." and the fragment "World"
    is in no unit. *)
Theorem trailing_fragment_dropped :
  cleanChunks_of (Some (js "Hello. World")) = [js "Hello."].
Proof. vm_compute. reflexivity. Qed.

(** Terminators at the very start are dropped as well. *)
Lemma leading_terminators_dropped :
  cleanChunks_of (Some (js "...Hello.")) = [js "Hello."].
Proof. vm_compute. reflexivity. Qed.

(** The examples of the specification that the code agrees with. *)
Example arch_units :
  cleanChunks_of (Some (js "See the arch. Built in 1900!")) =
  [js "See the arch."; js "Built in 1900!"].
Proof. vm_compute. reflexivity. Qed.

Example no_terminator_one_unit :
  cleanChunks_of (Some (js "  Plaza de toros ")) = [js "Plaza de toros"].
Proof. vm_compute. reflexivity. Qed.

Example terminators_only_one_unit :
  cleanChunks_of (Some (js "?!")) = [js "?!"].
Proof. vm_compute. reflexivity. Qed.

(** ** Selecting and stopping *)

(** C3. From every prior state, [handleSelectStop] first stops the engine,
    so that whatever utterance the engine held is dropped and the opening
    utterance is the one in flight, puts the cursor and its ref at 0 and
    leaves the flags at speaking and not paused.  The script it stores owes
    nothing to the prior state and is rebuilt from the stop's description.
    With [text] the trimmed description, or the placeholder when that is
    empty or the description is absent: [text] is a run of terminators, then
    the sentences (each a non-empty run without terminator followed by a
    non-empty run of terminators), then a run without terminator; the
    script is these sentences, each trimmed, or the single unit [text] when
    there is no sentence.  This cutting of [text] is unique, so it fixes the
    script; the script is never empty. *)
Theorem handleSelectStop_restarts (stop : Stop) (c : Component) :
  let text :=
    match description stop with
    | Some s => match trim s with [] => placeholder | _ :: _ => trim s end
    | None => placeholder
    end in
  let c' := fst (run (handleSelectStop stop) c) in
  hd_error (snd (run (handleSelectStop stop) c)) = Some Speech_stop /\
  (forall held,
      in_flight_after held (snd (run (handleSelectStop stop) c)) =
      Some (opening_options (cleanChunks_of (description stop)))) /\
  c' = mkComponent (Some stop) (cleanChunks_of (description stop)) 0 true false false 0 /\
  playbackState c' = Speaking /\
  sentences c' <> [] /\
  exists lead chunks tail,
    text = lead ++ concat chunks ++ tail /\
    forallb is_terminator lead = true /\
    forallb not_terminator tail = true /\
    Forall (fun m => exists a b,
                m = a ++ b /\ a <> [] /\ forallb not_terminator a = true /\
                b <> [] /\ forallb is_terminator b = true) chunks /\
    sentences c' = match chunks with
                   | [] => [text]
                   | _ :: _ => map trim chunks
                   end.
Proof.
  intros text c'. unfold c'. rewrite run_handleSelectStop.
  cbn [fst snd hd_error in_flight_after sentences].
  split; [reflexivity|]. split; [intros held; reflexivity|].
  split; [reflexivity|]. split; [reflexivity|].
  assert (Htext : fullText_of (description stop) = text).
  { unfold text, fullText_of.
    destruct (description stop) as [s|]; cbn [option_map or_else]; [|reflexivity].
    destruct (trim s); reflexivity. }
  assert (Htrim : trim text = text).
  { unfold text. destruct (description stop) as [s|]; [|vm_compute; reflexivity].
    destruct (trim s) as [|d t] eqn:E; [vm_compute; reflexivity|].
    rewrite <- E. apply trim_idem. }
  split; [exact (proj1 (cleanChunks_units (description stop)))|].
  destruct (scan_decomposition text) as (lead & tail & Hs & Hl & Ht).
  exists lead, (match_from text 0), tail.
  split; [exact Hs|]. split; [exact Hl|]. split; [exact Ht|].
  split; [apply match_from_sentences|].
  rewrite cleanChunks_map, Htext. unfold chunks_of, match_g.
  destruct (match_from text 0) as [|m ms]; [|reflexivity].
  cbn [map]. rewrite Htrim. reflexivity.
Qed.

(** At a concrete stop: while [giralda]'s narration is paused at its third
    unit, the marker of a stop described by
    "  See the arch. Built in 1900!  " is pressed.  The two sentences
    replace the five units, the cursor is back at 0, and the opening
    utterance follows the engine stop. *)
Lemma handleSelectStop_restarts_witness :
  let prior :=
    after [PressMarker giralda; Done (SelectStop_onDone giralda_script);
           PressPlay] in
  let arch := stop_with "Arco" (Some (js "  See the arch. Built in 1900!  ")) in
  prior = mkComponent (Some giralda) giralda_script 1 true true true 1 /\
  fst (run (handleSelectStop arch) prior) =
  mkComponent (Some arch) [js "See the arch."; js "Built in 1900!"]
    0 true false false 0 /\
  snd (run (handleSelectStop arch) prior) =
  [Speech_stop;
   Speech_speak (js "Arco. See the arch.")
     (opening_options [js "See the arch."; js "Built in 1900!"])] /\
  (forall held,
      in_flight_after held (snd (run (handleSelectStop arch) prior)) =
      Some (opening_options [js "See the arch."; js "Built in 1900!"])).
Proof.
  intros prior arch.
  assert (Hunits : cleanChunks_of (description arch) =
                   [js "See the arch."; js "Built in 1900!"])
    by (vm_compute; reflexivity).
  pose proof (handleSelectStop_restarts arch prior) as T. cbv zeta in T.
  destruct T as (_ & Hheld & Hc & _).
  split; [vm_compute; reflexivity|].
  split; [rewrite Hc, Hunits; reflexivity|].
  split; [vm_compute; reflexivity|].
  intros held. rewrite (Hheld held), Hunits. reflexivity.
Defined.

(** C6. From every prior state, [stopPlayback] stops the engine, which then
    holds no utterance, and leaves the component neither speaking nor
    paused, with cursor 0, an empty script and no selected stop. *)
Theorem stopPlayback_idles (c : Component) :
  snd (run stopPlayback c) = [Speech_stop] /\
  (forall held, in_flight_after held (snd (run stopPlayback c)) = None) /\
  playbackState (fst (run stopPlayback c)) = Idle /\
  isSpeaking (fst (run stopPlayback c)) = false /\
  isPaused (fst (run stopPlayback c)) = false /\
  currentIdx (fst (run stopPlayback c)) = 0 /\
  sentences (fst (run stopPlayback c)) = [] /\
  selectedStop (fst (run stopPlayback c)) = None.
Proof. rewrite run_stopPlayback. repeat split. Qed.

(** The two refs are not written by [stopPlayback]; the next selection
    overwrites both before [togglePlayback] can read them. *)
Lemma stopPlayback_keeps_refs (c : Component) :
  isPausedRef (fst (run stopPlayback c)) = isPausedRef c /\
  currentIdxRef (fst (run stopPlayback c)) = currentIdxRef c.
Proof. rewrite run_stopPlayback. split; reflexivity. Qed.

(** ** Pause and resume *)

(** While both flags are clear [togglePlayback] starts nothing: its only
    call is [Speech.pause], so the engine holds afterwards what it held
    before, the speaking flag stays clear and the state becomes paused. *)
Lemma togglePlayback_idle_pauses (c : Component) :
  playbackState c = Idle ->
  snd (run togglePlayback c) = [Speech_pause] /\
  (forall held, in_flight_after held (snd (run togglePlayback c)) = held) /\
  playbackState (fst (run togglePlayback c)) = Paused /\
  isSpeaking (fst (run togglePlayback c)) = false /\
  isPausedRef (fst (run togglePlayback c)) = true /\
  currentIdx (fst (run togglePlayback c)) = currentIdx c /\
  sentences (fst (run togglePlayback c)) = sentences c.
Proof.
  unfold playbackState. intros H.
  destruct (isPaused c) eqn:Hp; [discriminate|].
  destruct (isSpeaking c) eqn:Hs; [discriminate|].
  rewrite (run_togglePlayback_pause c Hp). cbn. rewrite Hs. repeat split.
Qed.

(** After the one-unit narration of [alcazar] has ended the panel is still
    on display, the flags read idle and nothing is in flight; the play
    button then pauses with nothing in flight. *)
Example idle_after_narration_pauses :
  let ended :=
    fire (Done (SelectStop_onDone [js "Uno."]))
      (fire (PressMarker alcazar) (mkSession initial None)) in
  reachable ended /\
  selectedStop (screen ended) = Some alcazar /\
  playbackState (screen ended) = Idle /\
  in_flight ended = None /\
  snd (run togglePlayback (screen ended)) = [Speech_pause] /\
  playbackState (screen (fire PressPlay ended)) = Paused /\
  in_flight (fire PressPlay ended) = None.
Proof.
  intros ended. split; [|vm_compute; repeat split].
  apply reachable_fire; [apply reachable_fire; [constructor | exact I]|].
  exists (opening_options [js "Uno."]). split; reflexivity.
Qed.

(** C10, at a session the screen reaches in which both flags are clear
    while an utterance is in flight.  The one-unit narration of [alcazar]
    has ended; the play button is pressed, which pauses, and pressed again,
    which speaks "Uno." and leaves the speaking flag clear.  The flags read
    idle and "Uno." is in flight.  A third press calls [Speech.pause] and
    nothing else, the state becomes paused, and the utterance paused is the
    one in flight. *)
Theorem idle_press_pauses_utterance_in_flight :
  let s :=
    fire PressPlay
      (fire PressPlay
         (fire (Done (SelectStop_onDone [js "Uno."]))
            (fire (PressMarker alcazar) (mkSession initial None)))) in
  reachable s /\
  screen s = mkComponent (Some alcazar) [js "Uno."] 0 false false false 0 /\
  playbackState (screen s) = Idle /\
  in_flight s = Some (unit_options [js "Uno."] 0) /\
  snd (run togglePlayback (screen s)) = [Speech_pause] /\
  playbackState (screen (fire PressPlay s)) = Paused /\
  in_flight (fire PressPlay s) = Some (unit_options [js "Uno."] 0).
Proof.
  intros s. split; [|vm_compute; repeat split].
  apply reachable_fire; [apply reachable_fire|]; [| discriminate | discriminate].
  apply reachable_fire; [apply reachable_fire; [constructor | exact I]|].
  exists (opening_options [js "Uno."]). split; reflexivity.
Qed.

(** [togglePlayback] writes the pause flag and its ref and never the
    speaking flag.  With the speaking flag set: called while not paused its
    only call is [Speech.pause], the state becomes paused and the cursor
    stays; called while paused, with the cursor ref mirroring the cursor and
    pointing at a unit of the script, it speaks the unit at the cursor, the
    state becomes speaking and the cursor stays. *)
Lemma togglePlayback_flips (c : Component) :
  isSpeaking c = true ->
  (playbackState c = Speaking ->
   snd (run togglePlayback c) = [Speech_pause] /\
   playbackState (fst (run togglePlayback c)) = Paused /\
   currentIdx (fst (run togglePlayback c)) = currentIdx c /\
   sentences (fst (run togglePlayback c)) = sentences c) /\
  (playbackState c = Paused ->
   forall unit_text,
     currentIdxRef c = currentIdx c ->
     nth_error (sentences c) (currentIdx c) = Some unit_text ->
     snd (run togglePlayback c) =
     [Speech_speak (trim unit_text) (unit_options (sentences c) (currentIdx c))] /\
     playbackState (fst (run togglePlayback c)) = Speaking /\
     currentIdx (fst (run togglePlayback c)) = currentIdx c /\
     sentences (fst (run togglePlayback c)) = sentences c).
Proof.
  intros Hs. unfold playbackState. rewrite Hs. split.
  - destruct (isPaused c) eqn:Hp; [discriminate|]. intros _.
    rewrite (run_togglePlayback_pause c Hp). repeat split.
  - destruct (isPaused c) eqn:Hp; [|discriminate]. intros _ u Href Hu.
    rewrite (run_togglePlayback_resume c Hp), Href.
    rewrite (run_playFrom_speaks (sentences c) (currentIdx c)
               (mkComponent (selectedStop c) (sentences c) (currentIdx c)
                  (isSpeaking c) false false (currentIdx c)) u Hu eq_refl).
    cbn. rewrite Hs. repeat split.
Qed.

(** C5, at two paused sessions the screen reaches.

    The speaking flag: the one-unit narration of [alcazar] has ended and the
    play button is pressed, which pauses.  Pressed again, [togglePlayback]
    clears the pause flag and speaks "Uno.", and as it never writes the
    speaking flag the flags read idle while the unit is spoken.

    The unit: when the opening utterance of [triana] ("A. B. C.") completes,
    "C." is spoken with the cursor at 1.  The play button is pressed while
    "C." is in flight, which pauses it.  Pressed again, [togglePlayback]
    speaks the unit of the script at the cursor, which is "B.", not the unit
    that was paused. *)
Theorem resume_misses_flag_and_unit :
  let start := mkSession initial None in
  let abc := [js "A."; js "B."; js "C."] in
  let p1 :=
    fire PressPlay
      (fire (Done (SelectStop_onDone [js "Uno."]))
         (fire (PressMarker alcazar) start)) in
  let s2 := fire (Done (SelectStop_onDone abc)) (fire (PressMarker triana) start) in
  let p2 := fire PressPlay s2 in
  (reachable p1 /\
   playbackState (screen p1) = Paused /\
   run togglePlayback (screen p1) =
   (mkComponent (Some alcazar) [js "Uno."] 0 false false false 0,
    [Speech_speak (js "Uno.") (unit_options [js "Uno."] 0)]) /\
   in_flight (fire PressPlay p1) = Some (unit_options [js "Uno."] 0) /\
   playbackState (screen (fire PressPlay p1)) = Idle) /\
  (reachable p2 /\
   snd (run (dispatch (Done (SelectStop_onDone abc)))
          (screen (fire (PressMarker triana) start))) =
   [Speech_speak (js "C.") (unit_options [js "B."; js "C."] 1)] /\
   playbackState (screen s2) = Speaking /\
   snd (run (dispatch PressPlay) (screen s2)) = [Speech_pause] /\
   playbackState (screen p2) = Paused /\
   in_flight p2 = Some (unit_options [js "B."; js "C."] 1) /\
   run togglePlayback (screen p2) =
   (mkComponent (Some triana) abc 1 true false false 1,
    [Speech_speak (js "B.") (unit_options abc 1)])).
Proof.
  intros start abc p1 s2 p2. split.
  - split; [|vm_compute; repeat split].
    apply reachable_fire; [|discriminate].
    apply reachable_fire; [apply reachable_fire; [constructor | exact I]|].
    exists (opening_options [js "Uno."]). split; reflexivity.
  - split; [|vm_compute; repeat split].
    apply reachable_fire; [|discriminate].
    apply reachable_fire; [apply reachable_fire; [constructor | exact I]|].
    exists (opening_options abc). split; reflexivity.
Qed.

(** ** Completion of the opening utterance *)

(** What the opening closure does when at least two units were built and the
    pause ref is clear: [playFrom] receives the script without its first unit
    together with the index 1, so the unit looked up is the third of the
    script and the cursor is set to 1. *)
Lemma opening_done_continues_at_third (u0 u1 : jsstring) (rest : list jsstring)
      (c : Component) :
  isPausedRef c = false ->
  run (run_onDone (SelectStop_onDone (u0 :: u1 :: rest))) c =
  match rest with
  | [] =>
      (mkComponent (selectedStop c) (sentences c) (currentIdx c) false
         (isPaused c) (isPausedRef c) (currentIdxRef c), [])
  | u2 :: _ =>
      (mkComponent (selectedStop c) (sentences c) 1 (isSpeaking c)
         (isPaused c) (isPausedRef c) 1,
       [Speech_speak (trim u2) (unit_options (u1 :: rest) 1)])
  end.
Proof.
  intros Hp. rewrite run_SelectStop_onDone.
  replace (negb (isPausedRef c)) with true by (rewrite Hp; reflexivity).
  cbn [length Nat.ltb Nat.leb andb skipn].
  destruct rest as [|u2 rest].
  - apply run_playFrom_past_end. simpl. lia.
  - apply run_playFrom_speaks; [reflexivity | exact Hp].
Qed.

(** C4, at the description "A. B. C.".  When the opening utterance
    ("Triana. A.") completes, the next utterance is "C." and the cursor is 1:
    the unit "B." at index 1 is not spoken, and the cursor does not point at
    the unit being spoken. *)
Theorem opening_done_skips_second_unit :
  cleanChunks_of (description triana) = [js "A."; js "B."; js "C."] /\
  run (dispatch_all [PressMarker triana;
                     Done (SelectStop_onDone [js "A."; js "B."; js "C."])])
      initial =
  (mkComponent (Some triana) [js "A."; js "B."; js "C."] 1 true false false 1,
   [Speech_stop;
    Speech_speak (js "Triana. A.") (opening_options [js "A."; js "B."; js "C."]);
    Speech_speak (js "C.") (unit_options [js "B."; js "C."] 1)]).
Proof. vm_compute. split; reflexivity. Qed.

(** With exactly two units nothing follows the opening utterance. *)
Lemma two_units_second_never_spoken :
  run (dispatch_all [PressMarker (stop_with "Triana" (Some (js "A. B.")));
                     Done (SelectStop_onDone [js "A."; js "B."])])
      initial =
  (mkComponent (Some (stop_with "Triana" (Some (js "A. B."))))
     [js "A."; js "B."] 0 false false false 0,
   [Speech_stop;
    Speech_speak (js "Triana. A.") (opening_options [js "A."; js "B."])]).
Proof. vm_compute. reflexivity. Qed.

(** The resume path hands [playFrom] the whole script and the cursor, so the
    two call sites of [playFrom] disagree on what index 1 means. *)
Lemma resume_speaks_unit_at_cursor :
  let mid := after [PressMarker triana;
                    Done (SelectStop_onDone [js "A."; js "B."; js "C."]);
                    PressPlay] in
  snd (run togglePlayback mid) =
  [Speech_speak (js "B.") (unit_options [js "A."; js "B."; js "C."] 1)].
Proof. vm_compute. reflexivity. Qed.

(** ** Engine errors *)

(** C7, at the opening utterance.  The error closure that [handleSelectStop]
    registers logs and alerts and writes no state: after it has run the
    component still reads speaking, whatever the stop, the prior state and
    the error. *)
Theorem opening_error_leaves_speaking (stop : Stop) (c : Component) (err : jsstring) :
  onError (opening_options (cleanChunks_of (description stop))) = SelectStop_onError /\
  run (dispatch_all [PressMarker stop; Failed SelectStop_onError err]) c =
  (mkComponent (Some stop) (cleanChunks_of (description stop)) 0 true false false 0,
   [Speech_stop;
    Speech_speak (initialText (title stop) (cleanChunks_of (description stop)))
      (opening_options (cleanChunks_of (description stop)));
    console_log [err];
    Alert_alert (js "Error")
      (js "No se pudo reproducir el audio. Verifica ajustes de voz.")]) /\
  playbackState
    (fst (run (dispatch_all [PressMarker stop; Failed SelectStop_onError err]) c))
  = Speaking.
Proof. repeat split. Qed.

(** The error closure of a later unit does clear the speaking flag, alerts
    once and speaks nothing. *)
Lemma unit_error_clears_speaking (c : Component) (err : jsstring) :
  isSpeaking (fst (run (run_onError PlayFrom_onError err) c)) = false /\
  snd (run (run_onError PlayFrom_onError err) c) =
  [console_log [js "Speech error:"; err];
   Alert_alert (js "Error de voz")
     (js "No se pudo reproducir. Verifica volumen o modo silencio.")] /\
  (isPaused c = false ->
   playbackState (fst (run (run_onError PlayFrom_onError err) c)) = Idle).
Proof.
  rewrite run_PlayFrom_onError. cbn. repeat split.
  unfold playbackState. cbn. intros ->. reflexivity.
Qed.

(** ** Callbacks that arrive after another stop was selected

    The screen keeps no playback session: a completion closure is told
    apart from a current one by nothing but the pause ref it reads. *)

(** C1, as the code has it.  After stop B is selected, a completion closure
    made for another stop A, whichever it is, reads the pause ref and
    nothing else.

    While B is paused it speaks nothing and moves no cursor: the closure of
    one of A's units (made by [playFrom] over A's array at [index]) changes
    nothing, and the closure of A's opening utterance clears B's speaking
    flag.

    While B is not paused, as right after its selection, the closure of a
    unit runs [playFrom] on A's array at [index + 1]: when A has a unit
    there it is spoken and B's cursor and cursor ref are set to
    [index + 1]; when A has none the speaking flag is cleared.  The closure
    of A's opening utterance runs [playFrom] on A's script without its first
    unit at index 1: when A's script has a third unit it is spoken and B's
    cursor and cursor ref are set to 1; otherwise the speaking flag is
    cleared. *)
Theorem stale_onDone_guarded_by_pause_only
        (stopB : Stop) (c : Component) (cb : onDone_closure) :
  let selected := fst (run (handleSelectStop stopB) c) in
  let paused := fst (run togglePlayback selected) in
  let script := cleanChunks_of (description stopB) in
  selected = mkComponent (Some stopB) script 0 true false false 0 /\
  paused = mkComponent (Some stopB) script 0 true true true 0 /\
  match cb with
  | PlayFrom_onDone array index =>
      run (run_onDone cb) paused = (paused, []) /\
      run (run_onDone cb) selected =
      match nth_error array (index + 1) with
      | Some unit_text =>
          (mkComponent (Some stopB) script (index + 1) true false false (index + 1),
           [Speech_speak (trim unit_text) (unit_options array (index + 1))])
      | None =>
          (mkComponent (Some stopB) script 0 false false false 0, [])
      end
  | SelectStop_onDone cleanChunks =>
      run (run_onDone cb) paused =
      (mkComponent (Some stopB) script 0 false true true 0, []) /\
      run (run_onDone cb) selected =
      match nth_error cleanChunks 2 with
      | Some unit_text =>
          (mkComponent (Some stopB) script 1 true false false 1,
           [Speech_speak (trim unit_text) (unit_options (skipn 1 cleanChunks) 1)])
      | None =>
          (mkComponent (Some stopB) script 0 false false false 0, [])
      end
  end.
Proof.
  intros selected paused script.
  assert (Hsel : selected = mkComponent (Some stopB) script 0 true false false 0).
  { unfold selected. rewrite run_handleSelectStop. reflexivity. }
  assert (Hpau : paused = mkComponent (Some stopB) script 0 true true true 0).
  { unfold paused. rewrite Hsel. reflexivity. }
  split; [exact Hsel|]. split; [exact Hpau|].
  rewrite Hsel, Hpau.
  destruct cb as [cleanChunks | array index].
  - rewrite !run_SelectStop_onDone. cbn [isPausedRef negb].
    rewrite andb_false_r, andb_true_r. split; [reflexivity|].
    destruct cleanChunks as [|u0 [|u1 [|u2 rest]]]; cbn [length Nat.ltb Nat.leb nth_error skipn].
    + reflexivity.
    + reflexivity.
    + apply run_playFrom_past_end. cbn [length]. lia.
    + apply run_playFrom_speaks; reflexivity.
  - rewrite !run_PlayFrom_onDone. cbn [isPausedRef]. split; [reflexivity|].
    destruct (nth_error array (index + 1)) as [u|] eqn:E.
    + rewrite run_playFrom_speaks with (unit_text := u);
        [reflexivity | exact E | reflexivity].
    + apply nth_error_None in E.
      rewrite run_playFrom_past_end; [reflexivity | exact E].
Qed.

(** The opening closure of A is never without effect on B: it either hands
    A's remaining units to [playFrom] or clears B's speaking flag. *)
Lemma stale_opening_onDone (stopB : Stop) (c : Component)
      (cleanChunks : list jsstring) :
  let selected := fst (run (handleSelectStop stopB) c) in
  run (run_onDone (SelectStop_onDone cleanChunks)) selected =
  if 1 <? length cleanChunks
  then run (playFrom (skipn 1 cleanChunks) 1) selected
  else (mkComponent (Some stopB) (cleanChunks_of (description stopB))
          0 false false false 0, []).
Proof.
  intros selected. rewrite run_SelectStop_onDone. unfold selected.
  rewrite run_handleSelectStop. cbn [fst isPausedRef negb].
  rewrite andb_true_r. reflexivity.
Qed.

(** C1 as stated fails here.  [alcazar] is selected while the third unit of
    [giralda] is being spoken;
    the completion closure of that unit then arrives.  It speaks "Four.",
    the next unit of [giralda]'s script, and moves the cursor of the
    one-unit script of [alcazar] from 0 to 2. *)
Lemma stale_onDone_advances_old_script :
  let stale := PlayFrom_onDone (skipn 1 giralda_script) 1 in
  let selected :=
    after [PressMarker giralda; Done (SelectStop_onDone giralda_script);
           PressMarker alcazar] in
  run (dispatch_all [PressMarker giralda; Done (SelectStop_onDone giralda_script)])
      initial =
  (mkComponent (Some giralda) giralda_script 1 true false false 1,
   [Speech_stop;
    Speech_speak (js "Giralda. One.") (opening_options giralda_script);
    Speech_speak (js "Three.")
      (mkOptions es_ES (Some (1 # 1)%Q) (Some (9 # 10)%Q) stale PlayFrom_onError)]) /\
  selected = mkComponent (Some alcazar) [js "Uno."] 0 true false false 0 /\
  run (run_onDone stale) selected =
  (mkComponent (Some alcazar) [js "Uno."] 2 true false false 2,
   [Speech_speak (js "Four.") (unit_options (skipn 1 giralda_script) 2)]) /\
  run (run_onDone stale) selected <> (selected, []).
Proof. vm_compute. repeat split. discriminate. Qed.

(** ** Sessions with a well-behaved engine *)

Lemma skipn_1_shorter (l : list jsstring) : length (skipn 1 l) <= length l.
Proof. rewrite length_skipn. lia. Qed.

Lemma consistent_selected (c : Component) (held : option SpeechOptions)
      (stop : Stop) :
  selectedStop c = Some stop ->
  sentences c = cleanChunks_of (description stop) ->
  currentIdx c < length (sentences c) ->
  currentIdxRef c = currentIdx c ->
  isPausedRef c = isPaused c ->
  (forall o, held = Some o -> closure_of_script c (onDone o)) ->
  consistent (mkSession c held).
Proof.
  intros Hstop Hscript Hcur Href Hpref Hheld. split; cbn [screen in_flight].
  - intros stop' Hstop'. rewrite Hstop in Hstop'. injection Hstop' as <-. auto.
  - intros o Ho. split; [congruence | exact (Hheld o Ho)].
Qed.

Lemma consistent_unselected (c : Component) :
  selectedStop c = None -> consistent (mkSession c None).
Proof.
  intros Hnone. split; cbn [screen in_flight]; [congruence | discriminate].
Qed.

(** [playFrom] over an array of the script keeps a session consistent. *)
Lemma playFrom_consistent (c : Component) (array : list jsstring) (index : nat)
      (stop : Stop) (held : option SpeechOptions) :
  selectedStop c = Some stop ->
  sentences c = cleanChunks_of (description stop) ->
  currentIdx c < length (sentences c) ->
  currentIdxRef c = currentIdx c ->
  isPausedRef c = isPaused c ->
  (forall o, held = Some o -> closure_of_script c (onDone o)) ->
  array = sentences c \/ array = skipn 1 (sentences c) ->
  consistent
    (mkSession (fst (run (playFrom array index) c))
               (in_flight_after held (snd (run (playFrom array index) c)))).
Proof.
  intros Hstop Hscript Hcur Href Hpref Hheld Harr.
  destruct (nth_error array index) as [u|] eqn:Hu.
  - assert (Hin : index < length array) by (apply nth_error_Some; congruence).
    destruct (isPausedRef c) eqn:Hp.
    + rewrite (run_playFrom_paused _ _ _ Hin Hp). cbn [fst snd in_flight_after].
      apply consistent_selected with (stop := stop);
        try assumption; congruence.
    + rewrite (run_playFrom_speaks _ _ _ _ Hu Hp).
      cbn [fst snd in_flight_after].
      assert (Hlen : length array <= length (sentences c))
        by (destruct Harr as [-> | ->]; [apply le_n | apply skipn_1_shorter]).
      apply consistent_selected with (stop := stop); cbn;
        try assumption; try congruence; try lia.
      intros o [= <-]. cbn. split; [exact Hin | exact Harr].
  - apply nth_error_None in Hu. rewrite (run_playFrom_past_end _ _ _ Hu).
    cbn [fst snd in_flight_after].
    apply consistent_selected with (stop := stop); cbn;
      try assumption; congruence.
Qed.

(** Every event that can occur keeps the session consistent. *)
Lemma fire_consistent (e : event) (s : session) :
  consistent s -> enabled e s -> consistent (fire e s).
Proof.
  intros [Hsel Hfly] He. destruct s as [c held]. unfold fire.
  cbn [screen in_flight] in Hsel, Hfly.
  destruct e as [stop | | | cb | cb err]; cbn [dispatch held_during screen in_flight].
  - (* a marker is pressed *)
    rewrite run_handleSelectStop. cbn [fst snd in_flight_after].
    destruct (cleanChunks_units (description stop)) as [Hne _].
    apply consistent_selected with (stop := stop); cbn; try reflexivity.
    + destruct (cleanChunks_of (description stop)); [contradiction | simpl; lia].
    + intros o [= <-]. reflexivity.
  - (* the play button *)
    cbn in He. destruct (selectedStop c) as [stop|] eqn:Hstop; [|contradiction].
    destruct (Hsel stop eq_refl) as (Hscript & Hcur & Href & Hpref).
    destruct (isPaused c) eqn:Hp.
    + rewrite (run_togglePlayback_resume c Hp).
      apply playFrom_consistent with (stop := stop); cbn; auto.
      intros o Ho. destruct (Hfly o Ho) as [_ Hcl].
      destruct (onDone o); exact Hcl.
    + rewrite (run_togglePlayback_pause c Hp). cbn [fst snd in_flight_after].
      apply consistent_selected with (stop := stop); cbn; auto.
      intros o Ho. destruct (Hfly o Ho) as [_ Hcl].
      destruct (onDone o); exact Hcl.
  - (* the stop button *)
    rewrite run_stopPlayback. cbn [fst snd in_flight_after].
    apply consistent_unselected. reflexivity.
  - (* a completion *)
    destruct He as (o & Ho & <-). cbn in Ho.
    destruct (Hfly o Ho) as [Hsome Hcl].
    destruct (selectedStop c) as [stop|] eqn:Hstop; [|contradiction].
    destruct (Hsel stop eq_refl) as (Hscript & Hcur & Href & Hpref).
    destruct (onDone o) as [chunks | array index].
    + rewrite run_SelectStop_onDone.
      destruct ((1 <? length chunks) && negb (isPausedRef c)).
      * apply playFrom_consistent with (stop := stop); auto.
        -- discriminate.
        -- right. rewrite Hcl. reflexivity.
      * cbn [fst snd in_flight_after].
        apply consistent_selected with (stop := stop); cbn; auto.
        discriminate.
    + rewrite run_PlayFrom_onDone. destruct (isPausedRef c) eqn:Hp.
      * cbn [fst snd in_flight_after].
        apply consistent_selected with (stop := stop);
          try assumption; congruence.
      * apply playFrom_consistent with (stop := stop);
          try assumption; try congruence.
        destruct Hcl as [_ Hcl]. exact Hcl.
  - (* an error *)
    destruct He as (o & Ho & <-).
    destruct (onError o).
    + rewrite run_SelectStop_onError. cbn [fst snd in_flight_after].
      split; [exact Hsel | discriminate].
    + rewrite run_PlayFrom_onError. cbn [fst snd in_flight_after].
      split; [exact Hsel | discriminate].
Qed.

(** The invariant of the sequencer: in every reachable session with a
    selected stop the cursor points into the script built from that stop and
    the refs mirror the state cells. *)
Lemma reachable_consistent (s : session) : reachable s -> consistent s.
Proof.
  induction 1 as [|e s _ IH He].
  - apply consistent_unselected. reflexivity.
  - exact (fire_consistent e s IH He).
Qed.

(** X4. In a reachable paused session the resume path finds a unit at the
    cursor and speaks exactly that unit, which [.trim()] leaves as it is. *)
Lemma reachable_resume_speaks_cursor_unit (s : session) :
  reachable s ->
  selectedStop (screen s) <> None ->
  isPaused (screen s) = true ->
  exists unit_text,
    nth_error (sentences (screen s)) (currentIdx (screen s)) = Some unit_text /\
    snd (run togglePlayback (screen s)) =
    [Speech_speak unit_text
       (unit_options (sentences (screen s)) (currentIdx (screen s)))] /\
    currentIdx (fst (run togglePlayback (screen s))) = currentIdx (screen s).
Proof.
  intros Hr Hsome Hp. destruct (reachable_consistent s Hr) as [Hsel _].
  destruct (selectedStop (screen s)) as [stop|] eqn:Hstop; [|contradiction].
  destruct (Hsel stop eq_refl) as (Hscript & Hcur & Href & Hpref).
  destruct (nth_error (sentences (screen s)) (currentIdx (screen s)))
    as [u|] eqn:Hu; [|apply nth_error_None in Hu; lia].
  exists u. split; [reflexivity|].
  rewrite (run_togglePlayback_resume _ Hp), Href.
  rewrite run_playFrom_speaks with (unit_text := u); [|exact Hu | reflexivity].
  cbn [fst snd currentIdx]. split; [|reflexivity].
  destruct (cleanChunks_units (description stop)) as [_ Hall].
  rewrite <- Hscript in Hall. rewrite Forall_forall in Hall.
  destruct (Hall u (nth_error_In _ _ Hu)) as [_ ->]. reflexivity.
Qed.

Example paused_session_reachable :
  reachable (fire PressPlay (fire (PressMarker triana) (mkSession initial None))) /\
  playbackState
    (screen (fire PressPlay (fire (PressMarker triana) (mkSession initial None))))
  = Paused.
Proof.
  split; [|reflexivity].
  apply reachable_fire; [apply reachable_fire; [constructor | exact I]|].
  discriminate.
Qed.

(** Under this discipline the completion of [giralda]'s third unit is not
    delivered once [alcazar] has been selected: a completion that arrives
    then comes from an engine that completes an utterance after
    [Speech.stop]. *)
Lemma stale_completion_not_enabled :
  let s :=
    fire (PressMarker alcazar)
      (fire (Done (SelectStop_onDone giralda_script))
         (fire (PressMarker giralda) (mkSession initial None))) in
  in_flight s = Some (opening_options [js "Uno."]) /\
  ~ enabled (Done (PlayFrom_onDone (skipn 1 giralda_script) 1)) s.
Proof.
  intros s. assert (H : in_flight s = Some (opening_options [js "Uno."]))
    by (vm_compute; reflexivity).
  split; [exact H|].
  intros (o & Ho & Hcb). rewrite H in Ho. injection Ho as <-. discriminate.
Qed.

(** * Further properties of the sequencer *)

(** ** Playing through an array *)

Lemma play_out_idle (fuel : nat) (c : Component) :
  play_out fuel (mkSession c None) = (mkSession c None, []).
Proof. destruct fuel; reflexivity. Qed.

Lemma play_out_step (fuel : nat) (c : Component) (o : SpeechOptions) :
  play_out (S fuel) (mkSession c (Some o)) =
  (fst (play_out fuel (fire (Done (onDone o)) (mkSession c (Some o)))),
   snd (run (run_onDone (onDone o)) c) ++
   snd (play_out fuel (fire (Done (onDone o)) (mkSession c (Some o))))).
Proof. reflexivity. Qed.

(** Fuel beyond the last completion changes nothing. *)
Lemma play_out_more (fuel extra : nat) (s : session) :
  in_flight (fst (play_out fuel s)) = None ->
  play_out (fuel + extra) s = play_out fuel s.
Proof.
  revert s. induction fuel as [|fuel IH]; intros [c held] H.
  - cbn in H. cbn in H. subst held. apply play_out_idle.
  - destruct held as [o|]; [|reflexivity].
    cbn [Nat.add]. rewrite !play_out_step. rewrite play_out_step in H.
    cbn [fst] in H. rewrite (IH _ H). reflexivity.
Qed.

Lemma play_out_enough (fuel fuel' : nat) (s : session) :
  in_flight (fst (play_out fuel s)) = None ->
  fuel <= fuel' ->
  play_out fuel' s = play_out fuel s.
Proof.
  intros H Hle. replace fuel' with (fuel + (fuel' - fuel)) by lia.
  apply play_out_more. exact H.
Qed.

Lemma playing_through_from (k : nat) :
  forall (array : list jsstring) (index : nat) (c : Component),
    length array = index + S k ->
    isPausedRef c = false ->
    currentIdx c = index ->
    currentIdxRef c = index ->
    play_out (S k) (mkSession c (Some (unit_options array index))) =
    (mkSession
       (mkComponent (selectedStop c) (sentences c) (index + k) false
          (isPaused c) false (index + k)) None,
     map (unit_utterance array) (seq (S index) k)).
Proof.
  induction k as [|k IH]; intros array index c Hlen Hp Hcur Href;
    destruct c as [st ss ci sp p pr cr]; cbn in Hp, Hcur, Href; subst pr ci cr;
    rewrite play_out_step; unfold fire;
    cbn [dispatch held_during screen in_flight onDone unit_options];
    rewrite run_PlayFrom_onDone; cbn [isPausedRef].
  - rewrite run_playFrom_past_end by lia.
    cbn [fst snd in_flight_after]. rewrite play_out_idle.
    cbn. rewrite Nat.add_0_r. reflexivity.
  - destruct (nth_error array (index + 1)) as [u|] eqn:Hu;
      [|apply nth_error_None in Hu; lia].
    rewrite run_playFrom_speaks with (unit_text := u) by (exact Hu || reflexivity).
    cbn [fst snd in_flight_after].
    rewrite (IH array (index + 1)) by (cbn; lia || reflexivity).
    cbn [fst snd selectedStop sentences isPaused app map seq].
    replace (index + 1 + k) with (index + S k) by lia.
    replace (index + 1) with (S index) in * by lia.
    unfold unit_utterance at 2. rewrite (nth_error_nth _ _ _ Hu). reflexivity.
Qed.

Lemma nth_skipn_1 (l : list jsstring) (j : nat) :
  nth j (skipn 1 l) [] = nth (S j) l [].
Proof. destruct l as [|x l]; [destruct j; reflexivity | reflexivity]. Qed.

(** A unit of a script is spoken as it stands. *)
Lemma script_unit_trimmed (description : option jsstring) (j : nat) :
  trim (nth j (cleanChunks_of description) []) = nth j (cleanChunks_of description) [].
Proof.
  destruct (cleanChunks_units description) as [_ Hall].
  destruct (nth_error (cleanChunks_of description) j) as [u|] eqn:Hu.
  - rewrite (nth_error_nth _ _ _ Hu).
    rewrite Forall_forall in Hall. exact (proj2 (Hall u (nth_error_In _ _ Hu))).
  - apply nth_error_None in Hu. rewrite nth_overflow by exact Hu. reflexivity.
Qed.

(** X2. [playFrom(array, index)] with the pause ref clear, followed by the
    completion of every utterance it leads to, speaks the units of [array]
    from [index] to the last one, each once and in order, trimmed, and
    nothing else; it ends with the cursor on the last unit, the speaking
    flag cleared and no utterance in flight. *)
Theorem playFrom_plays_to_the_end
        (array : list jsstring) (index : nat) (c : Component)
        (held : option SpeechOptions) :
  index < length array ->
  isPausedRef c = false ->
  let started := run (playFrom array index) c in
  let finished :=
    play_out (length array - index)
      (mkSession (fst started) (in_flight_after held (snd started))) in
  snd started ++ snd finished =
  map (unit_utterance array) (seq index (length array - index)) /\
  fst finished =
  mkSession
    (mkComponent (selectedStop c) (sentences c) (length array - 1) false
       (isPaused c) false (length array - 1)) None.
Proof.
  intros Hin Hp started finished. subst started finished.
  destruct (nth_error array index) as [u|] eqn:Hu;
    [|apply nth_error_None in Hu; lia].
  rewrite (run_playFrom_speaks _ _ _ _ Hu Hp). cbn [fst snd in_flight_after].
  replace (length array - index) with (S (length array - index - 1)) by lia.
  rewrite playing_through_from by (cbn; lia || assumption || reflexivity).
  cbn [fst snd seq map app selectedStop sentences isPaused]. split.
  - unfold unit_utterance at 2. rewrite (nth_error_nth _ _ _ Hu). reflexivity.
  - replace (index + (length array - index - 1)) with (length array - 1) by lia.
    reflexivity.
Qed.

Lemma playFrom_plays_to_the_end_witness :
  snd (run (playFrom giralda_script 2) initial) ++
  snd (play_out 3
         (mkSession (fst (run (playFrom giralda_script 2) initial))
            (in_flight_after None (snd (run (playFrom giralda_script 2) initial)))))
  = [Speech_speak (js "Three.") (unit_options giralda_script 2);
     Speech_speak (js "Four.") (unit_options giralda_script 3);
     Speech_speak (js "Five.") (unit_options giralda_script 4)].
Proof.
  assert (Hin : 2 < length giralda_script) by (cbn; lia).
  exact (proj1 (playFrom_plays_to_the_end giralda_script 2 initial None Hin eq_refl)).
Defined.

(** X3. A narration that nobody interrupts ends.  After a marker is pressed
    and the engine has completed every utterance, [length script - 1]
    completions at most, the speaking flag is cleared and nothing is in
    flight.  After the opening utterance the closures spoke the units of the
    script at the indices 2, 3, ... up to the last, in order; the cursor
    went from 1 to [length script - 2]. *)
Theorem narration_runs_to_idle (stop : Stop) (s : session) :
  let script := cleanChunks_of (description stop) in
  play_out (length script) (fire (PressMarker stop) s) =
  (mkSession
     (mkComponent (Some stop) script (length script - 2) false false false
        (length script - 2)) None,
   map (fun j => Speech_speak (nth (S j) script []) (unit_options (skipn 1 script) j))
       (seq 1 (length script - 2))).
Proof.
  intros script. unfold fire. cbn [dispatch held_during].
  rewrite run_handleSelectStop. cbn [fst snd in_flight_after]. fold script.
  assert (Htext : forall j, unit_utterance (skipn 1 script) j =
                            Speech_speak (nth (S j) script [])
                              (unit_options (skipn 1 script) j)).
  { intros j. unfold unit_utterance. rewrite nth_skipn_1.
    unfold script. rewrite script_unit_trimmed. reflexivity. }
  destruct (cleanChunks_units (description stop)) as [Hne _]. fold script in Hne.
  destruct script as [|u0 [|u1 [|u2 rest]]] eqn:Hscript; [contradiction| | |].
  - reflexivity.
  - reflexivity.
  - cbn [length]. change (S (S (S (length rest))) - 2) with (S (length rest)).
    rewrite play_out_step. unfold fire.
    cbn [dispatch held_during screen in_flight onDone opening_options].
    rewrite opening_done_continues_at_third by reflexivity.
    cbn [fst snd in_flight_after app selectedStop sentences isSpeaking
         isPaused isPausedRef currentIdx currentIdxRef].
    assert (Hrun := playing_through_from (length rest) (u1 :: u2 :: rest) 1
                      (mkComponent (Some stop) (u0 :: u1 :: u2 :: rest) 1 true
                         false false 1) eq_refl eq_refl eq_refl eq_refl).
    cbn [selectedStop sentences isPaused] in Hrun.
    rewrite (play_out_enough (S (length rest)) (S (S (length rest))));
      [|rewrite Hrun; reflexivity | lia].
    rewrite Hrun. cbn [fst snd seq map]. f_equal.
    f_equal; [exact (Htext 1) | apply map_ext; intros j; apply Htext].
Qed.

(** ** What every reachable session satisfies *)

(** The three results of [playFrom], by cases. *)
Lemma run_playFrom_cases (array : list jsstring) (index : nat) (c : Component) :
  (length array <= index /\
   run (playFrom array index) c =
   (mkComponent (selectedStop c) (sentences c) (currentIdx c) false
      (isPaused c) (isPausedRef c) (currentIdxRef c), [])) \/
  (index < length array /\ isPausedRef c = true /\
   run (playFrom array index) c = (c, [])) \/
  (exists unit_text,
      nth_error array index = Some unit_text /\ isPausedRef c = false /\
      run (playFrom array index) c =
      (mkComponent (selectedStop c) (sentences c) index (isSpeaking c)
         (isPaused c) (isPausedRef c) index,
       [Speech_speak (trim unit_text) (unit_options array index)])).
Proof.
  destruct (nth_error array index) as [u|] eqn:Hu.
  - assert (Hin : index < length array) by (apply nth_error_Some; congruence).
    destruct (isPausedRef c) eqn:Hp.
    + right. left. repeat split; [exact Hin|].
      apply run_playFrom_paused; assumption.
    + right. right. exists u. repeat split.
      rewrite (run_playFrom_speaks _ _ _ _ Hu Hp), Hp. reflexivity.
  - apply nth_error_None in Hu. left. split; [exact Hu|].
    apply run_playFrom_past_end. exact Hu.
Qed.

(** No handler but [handleSelectStop] and [stopPlayback] writes the selected
    stop or the script. *)
Lemma dispatch_keeps_script (e : event) (c : Component) :
  match e with
  | PressMarker _ => True
  | PressStop => True
  | _ =>
      selectedStop (fst (run (dispatch e) c)) = selectedStop c /\
      sentences (fst (run (dispatch e) c)) = sentences c
  end.
Proof.
  assert (Hplay : forall array index c0,
             selectedStop (fst (run (playFrom array index) c0)) = selectedStop c0 /\
             sentences (fst (run (playFrom array index) c0)) = sentences c0).
  { intros array index c0.
    destruct (run_playFrom_cases array index c0)
      as [[_ ->] | [(_ & _ & ->) | (u & _ & _ & ->)]]; split; reflexivity. }
  destruct e as [stop | | | [chunks | array index] | [|] err];
    cbn [dispatch]; try exact I.
  - destruct (isPaused c) eqn:Hp.
    + rewrite (run_togglePlayback_resume c Hp).
      exact (Hplay _ _ (mkComponent (selectedStop c) (sentences c) (currentIdx c)
                          (isSpeaking c) false false (currentIdxRef c))).
    + rewrite (run_togglePlayback_pause c Hp). split; reflexivity.
  - rewrite run_SelectStop_onDone.
    destruct ((1 <? length chunks) && negb (isPausedRef c));
      [apply Hplay | split; reflexivity].
  - rewrite run_PlayFrom_onDone.
    destruct (isPausedRef c); [split; reflexivity | apply Hplay].
  - rewrite run_SelectStop_onError. split; reflexivity.
  - rewrite run_PlayFrom_onError. split; reflexivity.
Qed.

(** With no stop selected the panel state is the initial one and the engine
    holds nothing. *)
Lemma reachable_unselected (s : session) :
  reachable s ->
  selectedStop (screen s) = None ->
  sentences (screen s) = [] /\ currentIdx (screen s) = 0 /\
  isSpeaking (screen s) = false /\ isPaused (screen s) = false /\
  in_flight s = None.
Proof.
  intros Hr. pose proof (reachable_consistent s Hr) as Hcons.
  destruct Hr as [|e s Hr He]; [intros _; repeat split|].
  pose proof (reachable_consistent s Hr) as [_ Hfly].
  pose proof (dispatch_keeps_script e (screen s)) as Hkeep.
  unfold fire. cbn [screen in_flight].
  destruct e as [stop | | | cb | cb err]; cbn [dispatch] in *.
  - rewrite run_handleSelectStop. discriminate.
  - destruct Hkeep as [-> _]. intros Hnone. contradiction.
  - rewrite run_stopPlayback. intros _. repeat split.
  - destruct Hkeep as [-> _]. intros Hnone.
    destruct He as (o & Ho & _). destruct (Hfly o Ho) as [Hsome _]. contradiction.
  - destruct Hkeep as [-> _]. intros Hnone.
    destruct He as (o & Ho & _). destruct (Hfly o Ho) as [Hsome _]. contradiction.
Qed.

(** X1. The invariant of the sequencer.  In every session reached by
    presses of markers and buttons and by the callbacks of the utterance in
    flight: while a stop is selected, the script is the segmentation of that
    stop's description, the cursor is an index of the script, and the two
    refs equal the state cells they mirror; while none is selected, the
    script is empty, the cursor is 0, the state is idle and the engine holds
    no utterance. *)
Theorem sequencer_invariant (s : session) :
  reachable s ->
  match selectedStop (screen s) with
  | Some stop =>
      sentences (screen s) = cleanChunks_of (description stop) /\
      currentIdx (screen s) < length (sentences (screen s)) /\
      currentIdxRef (screen s) = currentIdx (screen s) /\
      isPausedRef (screen s) = isPaused (screen s)
  | None =>
      sentences (screen s) = [] /\ currentIdx (screen s) = 0 /\
      playbackState (screen s) = Idle /\ in_flight s = None
  end.
Proof.
  intros Hr. destruct (selectedStop (screen s)) as [stop|] eqn:Hstop.
  - destruct (reachable_consistent s Hr) as [Hsel _]. exact (Hsel stop Hstop).
  - destruct (reachable_unselected s Hr Hstop) as (H1 & H2 & H3 & H4 & H5).
    unfold playbackState. rewrite H3, H4. auto.
Qed.

Lemma sequencer_invariant_witness :
  let s := fire PressPlay (fire (PressMarker triana) (mkSession initial None)) in
  reachable s /\
  sentences (screen s) = cleanChunks_of (description triana) /\
  currentIdx (screen s) < length (sentences (screen s)) /\
  currentIdxRef (screen s) = currentIdx (screen s) /\
  isPausedRef (screen s) = isPaused (screen s).
Proof.
  intros s. pose proof (proj1 paused_session_reachable) as Hr.
  split; [exact Hr | exact (sequencer_invariant s Hr)].
Defined.

Lemma reachable_resume_witness :
  let s := fire PressPlay (fire (PressMarker triana) (mkSession initial None)) in
  exists unit_text,
    nth_error (sentences (screen s)) (currentIdx (screen s)) = Some unit_text /\
    snd (run togglePlayback (screen s)) =
    [Speech_speak unit_text
       (unit_options (sentences (screen s)) (currentIdx (screen s)))] /\
    currentIdx (fst (run togglePlayback (screen s))) = currentIdx (screen s).
Proof.
  intros s.
  assert (Hsel : selectedStop (screen s) <> None) by discriminate.
  exact (reachable_resume_speaks_cursor_unit s (proj1 paused_session_reachable)
           Hsel eq_refl).
Defined.



(** X6. A completion that the engine delivers while the session is paused
    advances nothing: the closure makes no call, the cursor, the script and
    the pause flag stay, and afterwards no utterance is in flight. *)
Theorem paused_completion_advances_nothing (s : session) (cb : onDone_closure) :
  reachable s ->
  isPaused (screen s) = true ->
  enabled (Done cb) s ->
  snd (run (run_onDone cb) (screen s)) = [] /\
  in_flight (fire (Done cb) s) = None /\
  currentIdx (screen (fire (Done cb) s)) = currentIdx (screen s) /\
  sentences (screen (fire (Done cb) s)) = sentences (screen s) /\
  isPaused (screen (fire (Done cb) s)) = true.
Proof.
  intros Hr Hp (o & Ho & <-). destruct (reachable_consistent s Hr) as [Hsel Hfly].
  destruct (Hfly o Ho) as [Hsome _].
  destruct (selectedStop (screen s)) as [stop|] eqn:Hstop; [|contradiction].
  destruct (Hsel stop eq_refl) as (_ & _ & _ & Hpref).
  rewrite Hp in Hpref. unfold fire. cbn [dispatch held_during screen in_flight].
  destruct (onDone o) as [chunks | array index].
  - rewrite run_SelectStop_onDone, Hpref, andb_false_r.
    cbn. rewrite Hp. repeat split.
  - rewrite run_PlayFrom_onDone, Hpref. cbn. rewrite Hp. repeat split.
Qed.

Lemma paused_completion_advances_nothing_witness :
  let s := fire PressPlay (fire (PressMarker triana) (mkSession initial None)) in
  let cb := SelectStop_onDone [js "A."; js "B."; js "C."] in
  snd (run (run_onDone cb) (screen s)) = [] /\
  in_flight (fire (Done cb) s) = None /\
  currentIdx (screen (fire (Done cb) s)) = 0.
Proof.
  intros s cb.
  assert (He : enabled (Done cb) s).
  { exists (opening_options [js "A."; js "B."; js "C."]). split; reflexivity. }
  pose proof (paused_completion_advances_nothing s cb
                (proj1 paused_session_reachable) eq_refl He) as T.
  split; [exact (proj1 T)|].
  split; [exact (proj1 (proj2 T)) | exact (proj1 (proj2 (proj2 T)))].
Defined.

(** X7. Whatever the event and the state, the handler that serves it calls
    [Speech.speak] at most once.  This bounds the calls of one handler; it
    does not say that the engine holds one utterance at a time, since
    [togglePlayback] speaks on resume without stopping the paused
    utterance. *)
Theorem one_utterance_per_event (e : event) (c : Component) :
  length (filter is_speak (snd (run (dispatch e) c))) <= 1.
Proof.
  assert (Hplay : forall array index c0,
             length (filter is_speak (snd (run (playFrom array index) c0))) <= 1).
  { intros array index c0.
    destruct (run_playFrom_cases array index c0)
      as [[_ ->] | [(_ & _ & ->) | (u & _ & _ & ->)]]; cbn; lia. }
  destruct e as [stop | | | [chunks | array index] | [|] err]; cbn [dispatch].
  - rewrite run_handleSelectStop. cbn. lia.
  - destruct (isPaused c) eqn:Hp.
    + rewrite (run_togglePlayback_resume c Hp). apply Hplay.
    + rewrite (run_togglePlayback_pause c Hp). cbn. lia.
  - rewrite run_stopPlayback. cbn. lia.
  - rewrite run_SelectStop_onDone.
    destruct ((1 <? length chunks) && negb (isPausedRef c));
      [apply Hplay | cbn; lia].
  - rewrite run_PlayFrom_onDone.
    destruct (isPausedRef c); [cbn; lia | apply Hplay].
  - rewrite run_SelectStop_onError. cbn. lia.
  - rewrite run_PlayFrom_onError. cbn. lia.
Qed.

(** ** Every narration that is not paused ends *)

Lemma play_out_ends (k : nat) :
  forall (array : list jsstring) (index : nat) (c : Component) (o : SpeechOptions),
    onDone o = PlayFrom_onDone array index ->
    length array = index + S k ->
    isPausedRef c = false ->
    in_flight (fst (play_out (S k) (mkSession c (Some o)))) = None /\
    isSpeaking (screen (fst (play_out (S k) (mkSession c (Some o))))) = false /\
    isPaused (screen (fst (play_out (S k) (mkSession c (Some o))))) = isPaused c /\
    sentences (screen (fst (play_out (S k) (mkSession c (Some o))))) = sentences c /\
    selectedStop (screen (fst (play_out (S k) (mkSession c (Some o))))) = selectedStop c.
Proof.
  induction k as [|k IH]; intros array index c o Ho Hlen Hp;
    rewrite play_out_step; unfold fire;
    cbn [dispatch held_during screen in_flight fst]; rewrite Ho;
    rewrite run_PlayFrom_onDone, Hp.
  - rewrite run_playFrom_past_end by lia.
    cbn [fst snd in_flight_after]. rewrite play_out_idle. repeat split.
  - destruct (nth_error array (index + 1)) as [u|] eqn:Hu;
      [|apply nth_error_None in Hu; lia].
    rewrite (run_playFrom_speaks _ _ _ _ Hu Hp). cbn [fst snd in_flight_after].
    assert (Hlen' : length array = index + 1 + S k) by lia.
    exact (IH array (index + 1)
             (mkComponent (selectedStop c) (sentences c) (index + 1)
                (isSpeaking c) (isPaused c) (isPausedRef c) (index + 1))
             (unit_options array (index + 1)) eq_refl Hlen' Hp).
Qed.

Lemma play_out_ends_within
      (fuel : nat) (array : list jsstring) (index : nat) (c : Component)
      (o : SpeechOptions) :
  onDone o = PlayFrom_onDone array index ->
  index < length array ->
  isPausedRef c = false ->
  length array - index <= fuel ->
  in_flight (fst (play_out fuel (mkSession c (Some o)))) = None /\
  isSpeaking (screen (fst (play_out fuel (mkSession c (Some o))))) = false /\
  isPaused (screen (fst (play_out fuel (mkSession c (Some o))))) = isPaused c /\
  sentences (screen (fst (play_out fuel (mkSession c (Some o))))) = sentences c /\
  selectedStop (screen (fst (play_out fuel (mkSession c (Some o))))) = selectedStop c.
Proof.
  intros Ho Hin Hp Hfuel.
  assert (Hlen : length array = index + S (length array - index - 1)) by lia.
  pose proof (play_out_ends _ array index c o Ho Hlen Hp) as Hend.
  rewrite (play_out_enough (S (length array - index - 1)) fuel);
    [exact Hend | exact (proj1 Hend) | lia].
Qed.

(** X17. No narration runs for ever.  From every reachable session that
    is not paused and has an utterance in flight, once the engine has
    completed every utterance, which takes as many completions as the script
    has units at most, the speaking flag is cleared, the state is idle and
    nothing is in flight; the script and the selected stop are untouched. *)
Theorem unpaused_narration_ends (s : session) :
  reachable s ->
  isPaused (screen s) = false ->
  in_flight s <> None ->
  let ended := fst (play_out (length (sentences (screen s))) s) in
  in_flight ended = None /\
  playbackState (screen ended) = Idle /\
  sentences (screen ended) = sentences (screen s) /\
  selectedStop (screen ended) = selectedStop (screen s).
Proof.
  intros Hr Hp Hfl ended. subst ended.
  destruct (reachable_consistent s Hr) as [Hsel Hfly].
  destruct s as [c held]. cbn [screen in_flight] in *.
  destruct held as [o|]; [clear Hfl | contradiction].
  destruct (Hfly o eq_refl) as [Hsome Hcl].
  destruct (selectedStop c) as [stop|] eqn:Hstop; [|contradiction].
  destruct (Hsel stop eq_refl) as (_ & Hcur & _ & Hpref). rewrite Hp in Hpref.
  assert (Hgoal : forall r : session,
             in_flight r = None /\ isSpeaking (screen r) = false /\
             isPaused (screen r) = isPaused c /\
             sentences (screen r) = sentences c /\
             selectedStop (screen r) = selectedStop c ->
             in_flight r = None /\ playbackState (screen r) = Idle /\
             sentences (screen r) = sentences c /\
             selectedStop (screen r) = Some stop).
  { intros r (H1 & H2 & H3 & H4 & H5). unfold playbackState.
    rewrite H2, H3, Hp, H5, Hstop. auto. }
  apply Hgoal. clear Hgoal.
  destruct (onDone o) as [chunks | array index] eqn:Ho.
  - cbn in Hcl. subst chunks.
    destruct (length (sentences c)) as [|n] eqn:Hn; [lia|].
    rewrite play_out_step. unfold fire.
    cbn [dispatch held_during screen in_flight fst]. rewrite Ho.
    rewrite run_SelectStop_onDone, Hpref. cbn [negb]. rewrite andb_true_r.
    destruct (1 <? length (sentences c)) eqn:Hmany.
    + destruct (run_playFrom_cases (skipn 1 (sentences c)) 1 c)
        as [[_ ->] | [(_ & Hc & _) | (u & Hu & _ & ->)]]; [|congruence|];
        cbn [fst snd in_flight_after].
      * rewrite play_out_idle. repeat split.
      * assert (Hin : 1 < length (skipn 1 (sentences c)))
          by (apply nth_error_Some; congruence).
        assert (Hfuel : length (skipn 1 (sentences c)) - 1 <= n)
          by (rewrite length_skipn; lia).
        exact (play_out_ends_within n (skipn 1 (sentences c)) 1
                 (mkComponent (selectedStop c) (sentences c) 1 (isSpeaking c)
                    (isPaused c) (isPausedRef c) 1)
                 (unit_options (skipn 1 (sentences c)) 1) eq_refl Hin Hpref Hfuel).
    + cbn [fst snd in_flight_after]. rewrite play_out_idle. repeat split.
  - destruct Hcl as [Hin Harr].
    assert (Hlen : length array <= length (sentences c))
      by (destruct Harr as [-> | ->]; [apply le_n | apply skipn_1_shorter]).
    apply (play_out_ends_within _ array index c o Ho Hin Hpref). lia.
Qed.

Lemma unpaused_narration_ends_witness :
  let s := fire (PressMarker giralda) (mkSession initial None) in
  let ended := fst (play_out (length (sentences (screen s))) s) in
  in_flight ended = None /\
  playbackState (screen ended) = Idle /\
  sentences (screen ended) = sentences (screen s) /\
  selectedStop (screen ended) = selectedStop (screen s).
Proof.
  intros s.
  assert (Hr : reachable s) by (apply reachable_fire; [constructor | exact I]).
  assert (Hfl : in_flight s <> None) by discriminate.
  exact (unpaused_narration_ends s Hr eq_refl Hfl).
Defined.

Lemma in_skipn_1 (u : jsstring) (l : list jsstring) :
  In u (skipn 1 l) -> In u l.
Proof. destruct l as [|x l]; [intros [] | intros H; right; exact H]. Qed.

(** What [playFrom] speaks is a unit of the array it was given. *)
Lemma playFrom_speaks_array_unit (array : list jsstring) (index : nat)
      (c : Component) (text : jsstring) (o : SpeechOptions) :
  In (Speech_speak text o) (snd (run (playFrom array index) c)) ->
  exists unit_text, In unit_text array /\ text = trim unit_text.
Proof.
  destruct (run_playFrom_cases array index c)
    as [[_ ->] | [(_ & _ & ->) | (u & Hu & _ & ->)]]; cbn [snd].
  - intros [].
  - intros [].
  - intros [H | []]. injection H as <- _.
    exists u. split; [exact (nth_error_In _ _ Hu) | reflexivity].
Qed.

(** X8. In a reachable session the engine is never asked to speak an empty
    string, and never text from elsewhere than the stop on display: the
    utterance made when a marker is pressed is the stop's title, a full
    stop, a space and the first unit of the new script, and every other
    utterance is, character for character, a unit of the current script. *)
Theorem spoken_text_is_of_the_script
        (s : session) (e : event) (text : jsstring) (o : SpeechOptions) :
  reachable s ->
  enabled e s ->
  In (Speech_speak text o) (snd (run (dispatch e) (screen s))) ->
  text <> [] /\
  match e with
  | PressMarker stop =>
      text = title stop ++ js ". " ++ nth 0 (cleanChunks_of (description stop)) []
  | _ => In text (sentences (screen s))
  end.
Proof.
  intros Hr He Hin. destruct (reachable_consistent s Hr) as [Hsel Hfly].
  assert (Hunit : forall stop array unit_text,
             selectedStop (screen s) = Some stop ->
             array = sentences (screen s) \/ array = skipn 1 (sentences (screen s)) ->
             In unit_text array ->
             trim unit_text <> [] /\ In (trim unit_text) (sentences (screen s))).
  { intros stop array u Hstop Harr Hu.
    assert (Hu' : In u (sentences (screen s)))
      by (destruct Harr as [-> | ->]; [exact Hu | exact (in_skipn_1 _ _ Hu)]).
    destruct (Hsel stop Hstop) as (Hscript & _).
    destruct (cleanChunks_units (description stop)) as [_ Hall].
    rewrite <- Hscript, Forall_forall in Hall.
    destruct (Hall u Hu') as [Hne ->]. split; assumption. }
  destruct e as [stop | | | cb | cb err]; cbn [dispatch] in Hin.
  - rewrite run_handleSelectStop in Hin. cbn [snd] in Hin.
    destruct Hin as [H | [H | []]]; [discriminate|]. injection H as <- _.
    unfold initialText. split.
    + intros E. apply app_eq_nil in E. destruct E as [_ E]. discriminate.
    + do 2 f_equal.
      destruct (cleanChunks_of (description stop)) as [|[|x u] l]; reflexivity.
  - cbn in He. destruct (selectedStop (screen s)) as [stop|] eqn:Hstop;
      [|contradiction].
    destruct (isPaused (screen s)) eqn:Hp.
    + rewrite (run_togglePlayback_resume _ Hp) in Hin.
      destruct (playFrom_speaks_array_unit _ _ _ _ _ Hin) as (u & Hu & ->).
      exact (Hunit stop (sentences (screen s)) u eq_refl (or_introl eq_refl) Hu).
    + rewrite (run_togglePlayback_pause _ Hp) in Hin.
      destruct Hin as [H | []]. discriminate.
  - rewrite run_stopPlayback in Hin. destruct Hin as [H | []]. discriminate.
  - destruct He as (o' & Ho & <-). destruct (Hfly o' Ho) as [Hsome Hcl].
    destruct (selectedStop (screen s)) as [stop|] eqn:Hstop; [|contradiction].
    destruct (onDone o') as [chunks | array index].
    + rewrite run_SelectStop_onDone in Hin. cbn in Hcl. subst chunks.
      destruct ((1 <? length (sentences (screen s))) && negb (isPausedRef (screen s)));
        [|destruct Hin].
      destruct (playFrom_speaks_array_unit _ _ _ _ _ Hin) as (u & Hu & ->).
      exact (Hunit stop _ u eq_refl (or_intror eq_refl) Hu).
    + rewrite run_PlayFrom_onDone in Hin. destruct Hcl as [_ Harr].
      destruct (isPausedRef (screen s)); [destruct Hin|].
      destruct (playFrom_speaks_array_unit _ _ _ _ _ Hin) as (u & Hu & ->).
      exact (Hunit stop array u eq_refl Harr Hu).
  - destruct cb.
    + rewrite run_SelectStop_onError in Hin.
      destruct Hin as [H | [H | []]]; discriminate.
    + rewrite run_PlayFrom_onError in Hin.
      destruct Hin as [H | [H | []]]; discriminate.
Qed.

Lemma spoken_text_is_of_the_script_witness :
  let s := fire PressPlay (fire (PressMarker triana) (mkSession initial None)) in
  js "A." <> [] /\ In (js "A.") (sentences (screen s)).
Proof.
  intros s.
  assert (He : enabled PressPlay s) by discriminate.
  assert (Hin : In (Speech_speak (js "A.") (unit_options (sentences (screen s)) 0))
                   (snd (run (dispatch PressPlay) (screen s))))
    by (left; reflexivity).
  exact (spoken_text_is_of_the_script s PressPlay (js "A.") _
           (proj1 paused_session_reachable) He Hin).
Defined.

(** ** The rendered panel *)

Lemma filter_eqb_seq (k start n : nat) :
  filter (fun idx => idx =? k) (seq start n) =
  if (start <=? k) && (k <? start + n) then [k] else [].
Proof.
  revert start. induction n as [|n IH]; intros start; cbn [seq filter].
  - destruct (Nat.leb_spec start k), (Nat.ltb_spec k (start + 0));
      try lia; reflexivity.
  - rewrite IH.
    destruct (Nat.eqb_spec start k), (Nat.leb_spec start k),
      (Nat.leb_spec (S start) k), (Nat.ltb_spec k (S start + n)),
      (Nat.ltb_spec k (start + S n)); try lia; subst; reflexivity.
Qed.

Lemma activeSentences_cases (c : Component) :
  activeSentences c =
  if isSpeaking c && negb (isPaused c)
  then filter (fun idx => idx =? currentIdx c) (seq 0 (length (sentences c)))
  else [].
Proof.
  unfold activeSentences, sentenceActive.
  destruct (isSpeaking c && negb (isPaused c)) eqn:E.
  - apply filter_ext. intros idx. rewrite <- andb_assoc, E. apply andb_true_r.
  - induction (seq 0 (length (sentences c))) as [|idx l IH]; [reflexivity|].
    cbn [filter]. rewrite <- andb_assoc, E, andb_false_r. exact IH.
Qed.

(** X9. In every reachable session the panel renders each unit of the
    script as it stands, followed by a space, and marks as active exactly
    one sentence, the one at the cursor, while the state is speaking, and no
    sentence while it is paused or idle. *)
Theorem one_sentence_active_while_speaking (s : session) :
  reachable s ->
  activeSentences (screen s) =
  match playbackState (screen s) with
  | Speaking => [currentIdx (screen s)]
  | _ => []
  end /\
  renderedSentences (screen s) =
  map (fun unit_text => unit_text ++ js " ") (sentences (screen s)).
Proof.
  intros Hr. destruct (reachable_consistent s Hr) as [Hsel _].
  rewrite activeSentences_cases. unfold renderedSentences, playbackState.
  destruct (selectedStop (screen s)) as [stop|] eqn:Hstop.
  - destruct (Hsel stop eq_refl) as (Hscript & Hcur & _). split.
    + destruct (isPaused (screen s)), (isSpeaking (screen s));
        cbn [andb negb]; try reflexivity.
      rewrite filter_eqb_seq. cbn [Nat.leb andb Nat.add].
      apply Nat.ltb_lt in Hcur. rewrite Hcur. reflexivity.
    + apply map_ext_in. intros u Hu.
      destruct (cleanChunks_units (description stop)) as [_ Hall].
      rewrite <- Hscript, Forall_forall in Hall.
      rewrite (proj2 (Hall u Hu)). reflexivity.
  - destruct (reachable_unselected s Hr Hstop) as (Hnil & _ & Hsp & Hp & _).
    rewrite Hnil, Hsp, Hp. split; reflexivity.
Qed.

Lemma one_sentence_active_while_speaking_witness :
  let s := fire (PressMarker triana) (mkSession initial None) in
  activeSentences (screen s) = [0] /\
  renderedSentences (screen s) = [js "A. "; js "B. "; js "C. "].
Proof.
  intros s.
  assert (Hr : reachable s) by (apply reachable_fire; [constructor | exact I]).
  exact (one_sentence_active_while_speaking s Hr).
Defined.

(** * Further properties of the segmentation *)


(** X11. A text that does not start with a terminator and ends with one is
    cut without loss: its chunks, concatenated, are the text. *)
Theorem punctuated_text_is_covered (fullText : jsstring) :
  (exists c r, fullText = c :: r /\ is_terminator c = false) ->
  (exists r t, fullText = r ++ [t] /\ is_terminator t = true) ->
  concat (chunks_of fullText) = fullText.
Proof.
  intros (c & r & Hhead & Hc) (r' & t & Hlast & Ht).
  destruct (scan_decomposition fullText) as (lead & tail & Hs & Hl & Htl).
  assert (Hlead : lead = []).
  { destruct lead as [|x lead]; [reflexivity|].
    rewrite Hhead in Hs. injection Hs as -> _.
    simpl in Hl. rewrite Hc in Hl. discriminate. }
  assert (Htail : tail = []).
  { destruct (rev tail) as [|x rt] eqn:E.
    - apply (f_equal (@rev _)) in E. rewrite rev_involutive in E. exact E.
    - exfalso. apply (f_equal (@rev _)) in E. rewrite rev_involutive in E.
      simpl in E. subst tail.
      rewrite Hlast, !app_assoc in Hs. apply app_inj_tail in Hs.
      destruct Hs as [_ ->].
      rewrite forallb_app in Htl. apply andb_true_iff in Htl.
      destruct Htl as [_ Htl]. simpl in Htl. unfold not_terminator in Htl.
      rewrite Ht in Htl. discriminate. }
  subst lead tail. rewrite app_nil_r in Hs. simpl in Hs.
  unfold chunks_of, match_g.
  destruct (match_from fullText 0) as [|m ms].
  - simpl in Hs. rewrite Hhead in Hs. discriminate.
  - symmetry. exact Hs.
Qed.

Lemma punctuated_text_is_covered_witness :
  concat (chunks_of (js "See the arch. Built in 1900!")) =
  js "See the arch. Built in 1900!".
Proof.
  apply punctuated_text_is_covered.
  - exists 83%N, (js "ee the arch. Built in 1900!"). split; reflexivity.
  - exists (js "See the arch. Built in 1900"), 33%N. split; reflexivity.
Defined.

Lemma forallb_drop_while (p q : code_unit -> bool) (s : jsstring) :
  forallb p s = true -> forallb p (drop_while q s) = true.
Proof.
  induction s as [|c s IH]; simpl; [reflexivity|].
  intros H. destruct (q c); [|exact H].
  apply andb_true_iff in H. tauto.
Qed.

Lemma forallb_rev (p : code_unit -> bool) (s : jsstring) :
  forallb p (rev s) = forallb p s.
Proof.
  induction s as [|c s IH]; simpl; [reflexivity|].
  rewrite forallb_app, IH. simpl. rewrite andb_true_r. apply andb_comm.
Qed.

Lemma forallb_trim (p : code_unit -> bool) (s : jsstring) :
  forallb p s = true -> forallb p (trim s) = true.
Proof.
  intros H. unfold trim, trimEnd, trimStart.
  rewrite forallb_rev. apply forallb_drop_while.
  rewrite forallb_rev. apply forallb_drop_while. exact H.
Qed.

(** X12. A description without any terminator, and not blank, makes a
    script of exactly one unit: the whole description, trimmed. *)
Theorem unterminated_text_is_one_unit (s : jsstring) :
  forallb not_terminator s = true ->
  trim s <> [] ->
  cleanChunks_of (Some s) = [trim s].
Proof.
  intros Hnone Hne. rewrite cleanChunks_map.
  unfold fullText_of. cbn [option_map or_else].
  destruct (trim s) as [|c t] eqn:E; [contradiction|]. cbn [truthy].
  rewrite <- E. unfold chunks_of, match_g.
  rewrite (match_from_no_terminator _ (forallb_trim _ _ Hnone)).
  cbn [map]. rewrite trim_idem. reflexivity.
Qed.

Lemma unterminated_text_is_one_unit_witness :
  cleanChunks_of (Some (js "  Torre del Oro ")) = [js "Torre del Oro"].
Proof.
  assert (H1 : forallb not_terminator (js "  Torre del Oro ") = true) by reflexivity.
  assert (H2 : trim (js "  Torre del Oro ") <> []) by discriminate.
  exact (unterminated_text_is_one_unit _ H1 H2).
Defined.

Lemma drop_while_app_black (p : code_unit -> bool) (a b : jsstring) :
  match b with [] => False | c :: _ => p c = false end ->
  drop_while p (a ++ b) = drop_while p a ++ b.
Proof.
  intros Hb. induction a as [|x a IH]; simpl.
  - apply drop_while_stable. destruct b; [contradiction | exact Hb].
  - destruct (p x); [exact IH | reflexivity].
Qed.

(** Trimming a sentence only strips white space in front of it. *)
Lemma trim_sentence (a b : jsstring) :
  b <> [] -> forallb is_terminator b = true ->
  trim (a ++ b) = trimStart a ++ b.
Proof.
  intros Hb Hall. unfold trim, trimEnd, trimStart.
  assert (Hhead : match b with [] => False
                  | c :: _ => is_white_space c = false end).
  { destruct b as [|t b]; [contradiction|]. simpl in Hall.
    apply andb_true_iff in Hall. apply terminator_is_black. tauto. }
  rewrite (drop_while_app_black _ _ _ Hhead), rev_app_distr.
  assert (Hlast : match rev b with [] => False
                  | c :: _ => is_white_space c = false end).
  { destruct (rev b) as [|t rb] eqn:E.
    - apply (f_equal (@rev _)) in E. rewrite rev_involutive in E. contradiction.
    - assert (Ht : forallb is_terminator (rev b) = true)
        by (rewrite forallb_rev; exact Hall).
      rewrite E in Ht. simpl in Ht. apply andb_true_iff in Ht.
      apply terminator_is_black. tauto. }
  rewrite drop_while_stable.
  - rewrite <- rev_app_distr. apply rev_involutive.
  - destruct (rev b) as [|t rb]; [contradiction | exact Hlast].
Qed.

(** X13. One sentence per unit.  When the expression finds sentences in
    the text, every unit of the script is a run of units that are no
    terminators, possibly empty and not starting with white space, followed
    by a non-empty run of terminators that ends the unit; otherwise the
    script is the text itself as a single unit. *)
Theorem every_unit_is_one_sentence (description : option jsstring) :
  match match_g (fullText_of description) with
  | Some _ =>
      Forall (fun unit_text =>
                exists a b,
                  unit_text = a ++ b /\
                  forallb not_terminator a = true /\ trimStart a = a /\
                  b <> [] /\ forallb is_terminator b = true)
             (cleanChunks_of description)
  | None => cleanChunks_of description = [fullText_of description]
  end.
Proof.
  rewrite cleanChunks_map. unfold chunks_of, match_g.
  pose proof (match_from_sentences (fullText_of description) 0) as H.
  destruct (match_from (fullText_of description) 0) as [|m ms] eqn:E.
  - cbn [map]. f_equal. unfold fullText_of.
    destruct description as [s|]; cbn [option_map or_else]; [|reflexivity].
    destruct (trim s) eqn:Et; cbn [truthy]; [reflexivity|].
    rewrite <- Et. apply trim_idem.
  - apply Forall_map. eapply Forall_impl; [|exact H].
    intros u (a & b & -> & _ & Ha & Hb & Hbll).
    exists (trimStart a), b. rewrite (trim_sentence a b Hb Hbll).
    repeat split; try assumption.
    + apply forallb_drop_while. exact Ha.
    + apply drop_while_idem.
Qed.

Lemma terminated_chunks_counted (ms : list jsstring) :
  Forall (fun m => exists t, In t m /\ is_terminator t = true) ms ->
  length ms <= length (filter is_terminator (concat ms)).
Proof.
  induction 1 as [|m ms (t & Hin & Ht) _ IH]; [apply le_n|].
  cbn [concat length]. rewrite filter_app, length_app.
  assert (Hone : 1 <= length (filter is_terminator m)).
  { assert (Hf : In t (filter is_terminator m)) by (apply filter_In; auto).
    destruct (filter is_terminator m); [destruct Hf | simpl; lia]. }
  lia.
Qed.

(** X14. The script never has more units than the text has terminators,
    except that it always has one: its length is between 1 and the larger of
    1 and the number of terminators of the trimmed description. *)
Theorem script_length_bounds (description : option jsstring) :
  1 <= length (cleanChunks_of description) /\
  length (cleanChunks_of description) <=
  Nat.max 1 (length (filter is_terminator (fullText_of description))).
Proof.
  split.
  - destruct (cleanChunks_units description) as [Hne _].
    destruct (cleanChunks_of description); [contradiction | simpl; lia].
  - rewrite cleanChunks_map, length_map. unfold chunks_of, match_g.
    pose proof (match_from_terminated (fullText_of description) 0) as H.
    destruct (scan_decomposition (fullText_of description))
      as (lead & tail & Hs & _ & _).
    destruct (match_from (fullText_of description) 0) as [|m ms] eqn:E.
    + cbn [length]. lia.
    + apply terminated_chunks_counted in H.
      rewrite Hs, !filter_app, !length_app. lia.
Qed.

Lemma in_concat_infix (m : jsstring) (ms : list jsstring) :
  In m ms -> exists before after, concat ms = before ++ m ++ after.
Proof.
  induction ms as [|x ms IH]; [intros []|].
  intros [-> | Hin].
  - exists [], (concat ms). reflexivity.
  - destruct (IH Hin) as (p & q & Hpq). exists (x ++ p), q.
    cbn [concat]. rewrite Hpq, app_assoc. reflexivity.
Qed.

(** X16. The narration invents nothing: every unit of the script is a
    contiguous piece of the trimmed description (or of the placeholder when
    the description is blank), cut out of it without any change. *)
Theorem every_unit_is_a_piece_of_the_text (description : option jsstring) :
  Forall (fun unit_text =>
            exists before after,
              fullText_of description = before ++ unit_text ++ after)
         (cleanChunks_of description).
Proof.
  rewrite cleanChunks_map. apply Forall_map. unfold chunks_of, match_g.
  pose proof (match_from_sentences (fullText_of description) 0) as Hshape.
  destruct (scan_decomposition (fullText_of description))
    as (lead & tail & Hs & _ & _).
  destruct (match_from (fullText_of description) 0) as [|m0 ms] eqn:E.
  - constructor; [|constructor]. exists [], [].
    rewrite app_nil_r. cbn [app]. unfold fullText_of.
    destruct description as [s|]; cbn [option_map or_else]; [|reflexivity].
    destruct (trim s) eqn:Et; cbn [truthy]; [reflexivity|].
    rewrite <- Et. symmetry. apply trim_idem.
  - rewrite Forall_forall in *. intros m Hin.
    destruct (Hshape m Hin) as (a & b & -> & _ & _ & Hb & Hbll).
    destruct (in_concat_infix _ _ Hin) as (p & q & Hpq).
    destruct (drop_while_suffix is_white_space a) as (w & Hw & _).
    rewrite (trim_sentence a b Hb Hbll). unfold trimStart.
    exists (lead ++ p ++ w), (q ++ tail).
    rewrite Hs, Hpq. rewrite Hw at 1.
    rewrite <- !app_assoc. reflexivity.
Qed.

(** * Making and sharing the report *)

(** Splits a membership in a list of calls into its cases and closes those
    that name another call. *)
Ltac pdf_in H :=
  repeat match type of H with
         | _ \/ _ => destruct H as [H | H]; [try discriminate H|]
         | False => destruct H
         end;
  try match type of H with
      | PdfUtils.Sharing_shareAsync _ _ _ = _ => injection H as <- _ _
      end.

(** X15. [generateAndShareTourPDF] never rejects and tells the user of
    every failure.  Whatever the device answers: the promise resolves; at
    most one alert is shown; the share sheet is opened only with the file
    that printing returned and only when sharing is available; no alert is
    shown exactly when the file was printed, sharing was available and the
    share call resolved; and the alert "Error" is shown exactly when the
    print call, the availability call or the share call rejected. *)
Theorem report_sharing_outcomes
        (platform : PdfUtils.Platform) (tourTitle : jsstring)
        (stops : list Stop) (coverImageUrl : option jsstring) :
  let html :=
    GenerateTourReport.generateTourReportHTML
      (PdfUtils.toLocaleDateString platform) (PdfUtils.toLocaleTimeString platform)
      tourTitle stops coverImageUrl in
  let task := PdfUtils.generateAndShareTourPDF platform tourTitle stops coverImageUrl in
  let printed := PdfUtils.printToFileAsync platform html in
  let available := PdfUtils.isAvailableAsync platform in
  snd task = PdfUtils.Resolved tt /\
  hd_error (fst task) = Some (PdfUtils.Print_printToFileAsync html 595 842) /\
  length (filter PdfUtils.is_alert (fst task)) <= 1 /\
  (forall uri dialogTitle mimeType,
      In (PdfUtils.Sharing_shareAsync uri dialogTitle mimeType) (fst task) ->
      printed = PdfUtils.Resolved uri /\ available = PdfUtils.Resolved true) /\
  (filter PdfUtils.is_alert (fst task) = [] <->
   exists uri,
     printed = PdfUtils.Resolved uri /\ available = PdfUtils.Resolved true /\
     PdfUtils.shareAsync platform uri = PdfUtils.Resolved tt) /\
  (In PdfUtils.error_alert (fst task) <->
   (exists error, printed = PdfUtils.Rejected error) \/
   (exists uri error,
       printed = PdfUtils.Resolved uri /\
       (available = PdfUtils.Rejected error \/
        available = PdfUtils.Resolved true /\
        PdfUtils.shareAsync platform uri = PdfUtils.Rejected error))).
Proof.
  intros html task printed available. subst task.
  unfold PdfUtils.generateAndShareTourPDF. fold html.
  unfold PdfUtils.try_catch, PdfUtils.await, PdfUtils.call_out, PdfUtils.error_alert.
  cbn [bind ret PdfUtils.Monad_Task PdfUtils.Task_bind fst snd].
  fold printed. fold available.
  destruct printed as [uri | e1] eqn:Hprint;
    [destruct available as [[|] | e2] eqn:Havail;
     [destruct (PdfUtils.shareAsync platform uri) as [[] | e3] eqn:Hshare| |]|];
    cbn; try (rewrite Hshare; cbn);
    (split; [reflexivity|]); (split; [reflexivity|]); (split; [lia|]);
    (split; [intros u d m Hin; pdf_in Hin; split; reflexivity|]);
    split; split.
  all: try discriminate.
  all: try (intros Hin; pdf_in Hin; fail).
  all: try (intros (u & Hu & Ha & Hs); congruence).
  all: try (intros [(e & He) | (u & e & Hu & [Ha | [Ha Hs]])]; congruence).
  - intros _. exists uri. repeat split. exact Hshare.
  - intros _. right. exists uri, e3. split; [reflexivity|].
    right. split; [reflexivity | exact Hshare].
  - intros _. do 4 right. left. reflexivity.
  - intros _. right. exists uri, e2. split; [reflexivity | left; reflexivity].
  - intros _. do 3 right. left. reflexivity.
  - intros _. left. exists e1. reflexivity.
  - intros _. do 2 right. left. reflexivity.
Qed.
